(** * LayerScan: the audit engine, the fix engine and the node accessors

    A shallow embedding of the TypeScript sources

      - [src/utils/nodeHelpers.ts]   (dimension parsing, grid snapping, children)
      - [src/core/auditor.ts]        (flattening, context, rule pass, sorting)
      - [src/core/fixers.ts]         (applyFix, applyAllFixes, the undo log)
      - [src/core/rules/overflowingText.ts]

    Conventions of the embedding.

      - A JavaScript number is [JsNumber]: [NaN], the two infinities, or a
        finite value carried as an exact rational.  Rounding to binary64
        and the sign of zero are not represented; every computation the
        theorems below rely on (division and multiplication by 4 or 8,
        [Math.round], [%]) is exact on binary64 away from overflow.
      - A JavaScript string is a [string] of 8-bit characters.
      - A promise that settles is [Settled]: it resolves with a value or
        rejects with the thrown value.  Recursion that JavaScript leaves
        unbounded takes a [fuel] argument and answers [None] when the fuel
        is used up before the call returns.
      - Host state touched by fix thunks and callbacks is an abstract type
        [Host], threaded explicitly.  Console output is not represented. *)

From Stdlib Require Import ZArith QArith Qabs Qround List String Ascii Lia.
From Stdlib Require Import Permutation Sorting.Sorted Lqa.
From stdpp Require Import base gmap strings list.
Close Scope Q_scope.

(* ================================================================== *)
(** * Part I.  Definitions                                             *)
(* ================================================================== *)

(** ** JavaScript values *)

Inductive JsNumber : Type :=
| NaN
| Infinity (negative : bool)
| Finite (q : Q).

(** A value of TypeScript type [unknown]. *)
#[local] Set Warnings "-register-all".
Inductive JsValue : Type :=
| JsUndefined
| JsNull
| JsBool (b : bool)
| JsNum (n : JsNumber)
| JsStr (s : string)
| JsObject (fields : list (string * JsValue)).

(** What [throw] carries: an [Error] object, or any other value, of which
    only [String(value)] is ever read. *)
Inductive Thrown : Type :=
| ErrorObject (message : string)
| OtherThrown (asString : string).

Inductive Settled (A : Type) : Type :=
| Resolved (a : A)
| Rejected (error : Thrown).
Arguments Resolved {A} a.
Arguments Rejected {A} error.

Module JsNum.

Definition isNegative (q : Q) : bool := (Qnum q <? 0)%Z.
Definition isZero (q : Q) : bool := (Qnum q =? 0)%Z.

(** [isNaN(x)] *)
Definition isNaN (x : JsNumber) : bool :=
  match x with NaN => true | _ => false end.

(** [x > y] *)
Definition gt (x y : JsNumber) : bool :=
  match x, y with
  | NaN, _ | _, NaN => false
  | Infinity sx, Infinity sy => negb sx && sy
  | Infinity sx, Finite _ => negb sx
  | Finite _, Infinity sy => sy
  | Finite a, Finite b => negb (Qle_bool a b)
  end.

(** [x === y] on numbers *)
Definition strictEq (x y : JsNumber) : bool :=
  match x, y with
  | Finite a, Finite b => Qeq_bool a b
  | Infinity sx, Infinity sy => Bool.eqb sx sy
  | _, _ => false
  end.

(** [x - y] *)
Definition sub (x y : JsNumber) : JsNumber :=
  match x, y with
  | NaN, _ | _, NaN => NaN
  | Infinity sx, Infinity sy => if Bool.eqb sx sy then NaN else Infinity sx
  | Infinity sx, Finite _ => Infinity sx
  | Finite _, Infinity sy => Infinity (negb sy)
  | Finite a, Finite b => Finite (a - b)%Q
  end.

(** [x * y] *)
Definition mul (x y : JsNumber) : JsNumber :=
  match x, y with
  | NaN, _ | _, NaN => NaN
  | Infinity sx, Infinity sy => Infinity (xorb sx sy)
  | Infinity s, Finite q | Finite q, Infinity s =>
      if isZero q then NaN else Infinity (xorb s (isNegative q))
  | Finite a, Finite b => Finite (a * b)%Q
  end.

(** [x / y] *)
Definition div (x y : JsNumber) : JsNumber :=
  match x, y with
  | NaN, _ | _, NaN => NaN
  | Infinity _, Infinity _ => NaN
  | Infinity s, Finite q => Infinity (xorb s (isNegative q))
  | Finite _, Infinity _ => Finite 0%Q
  | Finite a, Finite b =>
      if isZero b
      then (if isZero a then NaN else Infinity (isNegative a))
      else Finite (a / b)%Q
  end.

(** Truncation toward zero of a rational. *)
Definition truncate (q : Q) : Z := Z.quot (Qnum q) (Zpos (Qden q)).

(** [x % y]: the remainder has the sign of the dividend. *)
Definition rem (x y : JsNumber) : JsNumber :=
  match x, y with
  | NaN, _ | _, NaN => NaN
  | Infinity _, _ => NaN
  | Finite a, Infinity _ => Finite a
  | Finite a, Finite b =>
      if isZero b then NaN
      else Finite (a - b * inject_Z (truncate (a / b)))%Q
  end.

(** [Math.round(x)]: the nearest integer, a tie going to the larger one. *)
Definition round (x : JsNumber) : JsNumber :=
  match x with
  | Finite q => Finite (inject_Z (Qfloor (q + (1 # 2))%Q))
  | other => other
  end.

Definition ofZ (z : Z) : JsNumber := Finite (inject_Z z).

End JsNum.

(** ** [parseFloat]

    The built-in reads the longest prefix of the trimmed input that is a
    [StrDecimalLiteral] and answers [NaN] when there is none.
    [parseFloatPrefix] also hands back what follows that prefix. *)

Module ParseFloat.

Definition isDigit (c : ascii) : bool :=
  let n := nat_of_ascii c in (48 <=? n)%nat && (n <=? 57)%nat.

Definition digitValue (c : ascii) : Z := Z.of_nat (nat_of_ascii c) - 48.

(** The white space of the 8-bit range that [parseFloat] skips: tab, line
    feed, vertical tab, form feed, carriage return, space and no-break
    space. *)
Definition isWhiteSpace (c : ascii) : bool :=
  let n := nat_of_ascii c in
  ((9 <=? n)%nat && (n <=? 13)%nat) || (n =? 32)%nat || (n =? 160)%nat.

Fixpoint trimStart (s : string) : string :=
  match s with
  | String c rest => if isWhiteSpace c then trimStart rest else s
  | EmptyString => s
  end.

(** The longest run of digits at the head of [s], and the rest. *)
Fixpoint takeDigits (s : string) : list ascii * string :=
  match s with
  | String c rest =>
      if isDigit c
      then let '(ds, tl) := takeDigits rest in (c :: ds, tl)
      else ([], s)
  | EmptyString => ([], s)
  end.

Definition digitsValue (ds : list ascii) : Z :=
  fold_left (fun acc c => 10 * acc + digitValue c)%Z ds 0%Z.

(** mantissa * 10^exponent, as a reduced rational *)
Definition scale (mantissa exponent : Z) : Q :=
  if (0 <=? exponent)%Z
  then inject_Z (mantissa * 10 ^ exponent)
  else Qred (mantissa # Z.to_pos (10 ^ (- exponent))).

(** [ExponentPart]: [e] or [E], an optional sign, at least one digit.
    When the part is absent or malformed nothing is consumed. *)
Definition takeExponent (s : string) : Z * string :=
  match s with
  | String c rest =>
      if Ascii.eqb c "e" || Ascii.eqb c "E" then
        let '(negative, afterSign) :=
          match rest with
          | String "-" r => (true, r)
          | String "+" r => (false, r)
          | _ => (false, rest)
          end in
        match takeDigits afterSign with
        | ([], _) => (0%Z, s)
        | (ds, tl) => ((if negative then - digitsValue ds else digitsValue ds)%Z, tl)
        end
      else (0%Z, s)
  | EmptyString => (0%Z, s)
  end.

(** [StrUnsignedDecimalLiteral] other than [Infinity]. *)
Definition takeUnsignedDecimal (s : string) : option (Q * string) :=
  let '(intDigits, afterInt) := takeDigits s in
  let '(fracDigits, afterFrac, sawDigits) :=
    match afterInt with
    | String "." r =>
        let '(fs, tl) := takeDigits r in
        match intDigits, fs with
        | [], [] => ([], afterInt, false)
        | _, _ => (fs, tl, true)
        end
    | _ => ([], afterInt, match intDigits with [] => false | _ => true end)
    end in
  if sawDigits then
    let '(exponent, rest) := takeExponent afterFrac in
    Some (scale (digitsValue (intDigits ++ fracDigits))
                (exponent - Z.of_nat (length fracDigits)),
          rest)
  else None.

Definition takeUnsigned (s : string) : option (JsNumber * string) :=
  if String.prefix "Infinity" s
  then Some (Infinity false, String.substring 8 (String.length s - 8) s)
  else match takeUnsignedDecimal s with
       | Some (q, rest) => Some (Finite q, rest)
       | None => None
       end.

Definition negate (x : JsNumber) : JsNumber :=
  match x with
  | NaN => NaN
  | Infinity s => Infinity (negb s)
  | Finite q => Finite (- q)%Q
  end.

Definition parseFloatPrefix (s : string) : option (JsNumber * string) :=
  match trimStart s with
  | String "-" rest =>
      match takeUnsigned rest with
      | Some (x, tl) => Some (negate x, tl)
      | None => None
      end
  | String "+" rest => takeUnsigned rest
  | trimmed => takeUnsigned trimmed
  end.

(** [parseFloat(s)] *)
Definition parseFloat (s : string) : JsNumber :=
  match parseFloatPrefix s with
  | Some (x, _) => x
  | None => NaN
  end.

End ParseFloat.

(** ** Nodes, settings, issues and rules ([core/types.ts]) *)

Inductive NodeClass : Type := FrameNode | TextNode | ImageNode | ComponentNode.

(** The fields of a node that the functions below read.  [None] stands for
    a property that is absent from the object.  [width] and [height] are
    kept raw: the host hands over numbers and strings alike, and
    [parseDimension] takes its argument at type [unknown]. *)
Inductive FramerNode : Type := MkNode {
  node_class : NodeClass;
  node_id : string;
  node_name : option string;
  node_visible : option bool;
  node_width : option JsValue;
  node_height : option JsValue;
  node_children : option (list FramerNode)
}.

Inductive GridBase : Type := Grid4 | Grid8.

Definition gridBaseValue (gridBase : GridBase) : JsNumber :=
  match gridBase with
  | Grid4 => JsNum.ofZ 4
  | Grid8 => JsNum.ofZ 8
  end.

Record PluginSettings : Type := {
  spacingGrid : GridBase;
  confirmAutoFix : bool;
  enabledRules : list string;
  disabledRules : list string;
  analyticsEnabled : bool;
  maxDisplayedIssues : JsNumber
}.

Definition DEFAULT_SETTINGS : PluginSettings := {|
  spacingGrid := Grid8;
  confirmAutoFix := true;
  enabledRules := [];
  disabledRules := [];
  analyticsEnabled := false;
  maxDisplayedIssues := JsNum.ofZ 100
|}.

Inductive Severity : Type := SeverityInfo | SeverityWarning | SeverityError.

Inductive IssueCategory : Type :=
  Layout | Spacing | Hierarchy | Accessibility | Performance.

Record NodeRef : Type := {
  ref_id : string;
  ref_name : option string;
  ref_type : option string;
  ref_path : option string
}.

Record AuditContext : Type := {
  allNodes : list FramerNode;
  parent : option FramerNode;
  siblings : list FramerNode;
  settings : PluginSettings
}.

(** An async zero-argument thunk acting on the host. *)
Definition FixAction (Host : Type) : Type := Host -> Settled unit * Host.

Record Issue (Host : Type) : Type := {
  issue_id : string;
  issue_node : NodeRef;
  ruleId : string;
  title : string;
  description : string;
  severity : Severity;
  category : IssueCategory;
  canAutoFix : bool;
  fixAction : option (FixAction Host);
  metadata : list (string * JsValue)
}.
Arguments issue_id {Host} _.
Arguments issue_node {Host} _.
Arguments ruleId {Host} _.
Arguments title {Host} _.
Arguments description {Host} _.
Arguments severity {Host} _.
Arguments category {Host} _.
Arguments canAutoFix {Host} _.
Arguments fixAction {Host} _.
Arguments metadata {Host} _.

Record Rule (Host : Type) : Type := {
  rule_id : string;
  rule_category : IssueCategory;
  rule_name : string;
  rule_description : string;
  enabledByDefault : bool;
  check : FramerNode -> AuditContext -> Settled (option (Issue Host))
}.
Arguments rule_id {Host} _.
Arguments rule_category {Host} _.
Arguments rule_name {Host} _.
Arguments rule_description {Host} _.
Arguments enabledByDefault {Host} _.
Arguments check {Host} _ _ _.

Record AuditResult (Host : Type) : Type := {
  issues : list (Issue Host);
  nodesAudited : nat;
  durationMs : JsNumber;
  errors : option (list string)
}.
Arguments issues {Host} _.
Arguments nodesAudited {Host} _.
Arguments durationMs {Host} _.
Arguments errors {Host} _.

(** ** Node accessors ([utils/nodeHelpers.ts]) *)

Definition isFrameNode (node : FramerNode) : bool :=
  match node_class node with FrameNode => true | _ => false end.

Definition isTextNode (node : FramerNode) : bool :=
  match node_class node with TextNode => true | _ => false end.

(** What [parseDimension] returns when it does not return [undefined]. *)
Inductive Dimension : Type :=
| DimNumber (n : JsNumber)
| DimFill.

(** [value.match(/^([0-9.]+)px$/)]: the captured group when the whole of
    [value] is a non-empty run of digits and dots followed by [px]. *)
Definition isDigitOrDot (c : ascii) : bool :=
  ParseFloat.isDigit c || Ascii.eqb c ".".

Fixpoint takeDigitsAndDots (s : string) : string * string :=
  match s with
  | String c rest =>
      if isDigitOrDot c
      then let '(run, tl) := takeDigitsAndDots rest in (String c run, tl)
      else (EmptyString, s)
  | EmptyString => (EmptyString, s)
  end.

Definition matchPx (value : string) : option string :=
  match takeDigitsAndDots value with
  | (EmptyString, _) => None
  | (run, tl) => if String.eqb tl "px" then Some run else None
  end.

Definition parseDimension (value : JsValue) : option Dimension :=
  match value with
  | JsNum n => Some (DimNumber n)
  | JsStr s =>
      if String.eqb s "fill" || String.eqb s "1fr" then Some DimFill
      else match matchPx s with
           | Some group => Some (DimNumber (ParseFloat.parseFloat group))
           | None =>
               let num := ParseFloat.parseFloat s in
               if negb (JsNum.isNaN num) then Some (DimNumber num) else None
           end
  | _ => None
  end.

Definition getNodeWidth (node : FramerNode) : option JsNumber :=
  match node_width node with
  | Some w =>
      match parseDimension w with
      | Some (DimNumber n) => Some n
      | _ => None
      end
  | None => None
  end.

Definition getNodeHeight (node : FramerNode) : option JsNumber :=
  match node_height node with
  | Some h =>
      match parseDimension h with
      | Some (DimNumber n) => Some n
      | _ => None
      end
  | None => None
  end.

(** [node.__class.replace('Node', '').toLowerCase()] *)
Definition classTypeName (c : NodeClass) : string :=
  match c with
  | FrameNode => "frame"
  | TextNode => "text"
  | ImageNode => "image"
  | ComponentNode => "component"
  end.

Definition createNodeRef (node : FramerNode) : NodeRef := {|
  ref_id := node_id node;
  ref_name := node_name node;
  ref_type := Some (classTypeName (node_class node));
  ref_path := None
|}.

Definition getChildren (node : FramerNode) : list FramerNode :=
  match node_children node with
  | Some children => children
  | None => []
  end.

Definition nearestGridValue (value : JsNumber) (gridBase : GridBase) : JsNumber :=
  JsNum.mul (JsNum.round (JsNum.div value (gridBaseValue gridBase)))
            (gridBaseValue gridBase).

Definition isOnGrid (value : JsNumber) (gridBase : GridBase) : bool :=
  JsNum.strictEq (JsNum.rem value (gridBaseValue gridBase)) (JsNum.ofZ 0).

(** ** The audit engine ([core/auditor.ts]) *)

(** What [framer.getChildren(node.id)] does inside the [try] of [traverse]:
    the import or the call throws, or the call returns a value, which the
    code walks only when it is a (truthy) array: [Some children]. *)
Inductive ChildrenApiResult : Type :=
| ApiThrows
| ApiReturns (children : option (list FramerNode)).

Definition doubleQuote : string := String (ascii_of_nat 34) EmptyString.

(** [error instanceof Error ? error.message : String(error)] *)
Definition thrownMessage (error : Thrown) : string :=
  match error with
  | ErrorObject message => message
  | OtherThrown asString => asString
  end.

Section Auditor.

Variable Host : Type.

(** The host's node-tree provider. *)
Variable framerGetChildren : string -> ChildrenApiResult.

(** The registry imported from [./rules]. *)
Variable allRules : list (Rule Host).

(** [traverse] pushes onto the array [result] of the enclosing
    [flattenNodes]; the array is threaded through.  Inside the [try] the
    import and the provider call can throw, which the [catch] turns into
    the walk of the embedded children; nothing else in [traverse] throws on
    well-typed nodes, so the promise it returns never rejects. *)
Fixpoint traverse (fuel : nat) (node : FramerNode) (result : list FramerNode)
  : option (list FramerNode) :=
  match fuel with
  | O => None
  | S fuel' =>
      let result := result ++ [node] in
      let forEachChild :=
        fix forEachChild (children : list FramerNode) (result : list FramerNode)
          : option (list FramerNode) :=
          match children with
          | [] => Some result
          | child :: more =>
              match traverse fuel' child result with
              | Some result' => forEachChild more result'
              | None => None
              end
          end in
      match framerGetChildren (node_id node) with
      | ApiReturns (Some children) => forEachChild children result
      | ApiReturns None => Some result
      | ApiThrows => forEachChild (getChildren node) result
      end
  end.

(** The [for (const node of nodes) await traverse(node)] of [flattenNodes]. *)
Fixpoint traverseEach (fuel : nat) (nodes : list FramerNode)
  (result : list FramerNode) : option (list FramerNode) :=
  match nodes with
  | [] => Some result
  | node :: more =>
      match traverse fuel node result with
      | Some result' => traverseEach fuel more result'
      | None => None
      end
  end.

Definition flattenNodes (fuel : nat) (nodes : list FramerNode)
  : option (list FramerNode) :=
  traverseEach fuel nodes [].

Definition hasChildWithId (id : string) (potentialParent : FramerNode) : bool :=
  existsb (fun child => String.eqb (node_id child) id) (getChildren potentialParent).

Definition buildContext (node : FramerNode) (allNodes : list FramerNode)
  (settings : PluginSettings) : AuditContext :=
  match List.find (hasChildWithId (node_id node)) allNodes with
  | Some potentialParent => {|
      allNodes := allNodes;
      parent := Some potentialParent;
      siblings :=
        List.filter (fun child => negb (String.eqb (node_id child) (node_id node)))
                    (getChildren potentialParent);
      settings := settings |}
  | None => {|
      allNodes := allNodes;
      parent := None;
      siblings := [];
      settings := settings |}
  end.

(** [list.includes(id)] *)
Definition includes (ids : list string) (id : string) : bool :=
  existsb (String.eqb id) ids.

Definition getEnabledRules (settings : PluginSettings) : list (Rule Host) :=
  List.filter
    (fun rule =>
       if includes (disabledRules settings) (rule_id rule) then false
       else if (0 <? length (enabledRules settings))%nat
            then includes (enabledRules settings) (rule_id rule)
            else enabledByDefault rule)
    allRules.

(** The three accumulators of [auditNodes]. *)
Record AuditState : Type := {
  st_issues : list (Issue Host);
  st_errors : list string;
  st_seenIssues : gset string
}.

Definition ruleErrorMsg (rule : Rule Host) (node : FramerNode) (error : Thrown)
  : string :=
  "Rule " +:+ doubleQuote +:+ rule_id rule +:+ doubleQuote +:+
  " failed on node " +:+ doubleQuote +:+ node_id node +:+ doubleQuote +:+
  ": " +:+ thrownMessage error.

(** The body of the inner loop: one [try { ... } catch { ... }]. *)
Definition runRule (node : FramerNode) (context : AuditContext)
  (st : AuditState) (rule : Rule Host) : AuditState :=
  match check rule node context with
  | Resolved (Some issue) =>
      if bool_decide (issue_id issue ∈ st_seenIssues st) then st
      else {| st_issues := st_issues st ++ [issue];
              st_errors := st_errors st;
              st_seenIssues := {[ issue_id issue ]} ∪ st_seenIssues st |}
  | Resolved None => st
  | Rejected error =>
      {| st_issues := st_issues st;
         st_errors := st_errors st ++ [ruleErrorMsg rule node error];
         st_seenIssues := st_seenIssues st |}
  end.

(** The body of the outer loop. *)
Definition runNode (enabled : list (Rule Host)) (allNodesFlat : list FramerNode)
  (settings : PluginSettings) (st : AuditState) (node : FramerNode) : AuditState :=
  let context := buildContext node allNodesFlat settings in
  fold_left (runRule node context) enabled st.

Definition initialAuditState : AuditState :=
  {| st_issues := []; st_errors := []; st_seenIssues := ∅ |}.

(** [startTime] and [endTime] are the two readings of [performance.now()].
    A call that omits [settings] is the call at [DEFAULT_SETTINGS]. *)
Definition auditNodes (fuel : nat) (startTime endTime : JsNumber)
  (nodes : list FramerNode) (settings : PluginSettings)
  : option (AuditResult Host) :=
  let enabled := getEnabledRules settings in
  match flattenNodes fuel nodes with
  | None => None
  | Some allNodesFlat =>
      let st :=
        fold_left (runNode enabled allNodesFlat settings) allNodesFlat
                  initialAuditState in
      Some {| issues := st_issues st;
              nodesAudited := length allNodesFlat;
              durationMs := JsNum.sub endTime startTime;
              errors := if (0 <? length (st_errors st))%nat
                        then Some (st_errors st) else None |}
  end.

(** [Array.prototype.sort] with a comparator: specified stable, so for a
    comparator that is a consistent ordering its result is determined;
    modelled by insertion from the right. *)
Fixpoint sortInsert {A : Type} (compareFn : A -> A -> Z) (x : A) (sorted : list A)
  : list A :=
  match sorted with
  | [] => [x]
  | y :: rest =>
      if (0 <? compareFn x y)%Z
      then y :: sortInsert compareFn x rest
      else x :: sorted
  end.

Definition arraySort {A : Type} (compareFn : A -> A -> Z) (l : list A) : list A :=
  fold_right (sortInsert compareFn) [] l.

Definition severityOrder (s : Severity) : Z :=
  match s with
  | SeverityError => 0
  | SeverityWarning => 1
  | SeverityInfo => 2
  end.

Definition sortBySeverity (issues : list (Issue Host)) : list (Issue Host) :=
  arraySort
    (fun a b => severityOrder (severity a) - severityOrder (severity b))%Z
    issues.

End Auditor.

(** ** The fix engine ([core/fixers.ts]) *)

Section Fixers.

Variable Host : Type.

Definition applyFix (issue : Issue Host) (host : Host) : bool * Host :=
  match canAutoFix issue, fixAction issue with
  | true, Some action =>
      match action host with
      | (Resolved _, host') => (true, host')
      | (Rejected _, host') => (false, host')
      end
  | _, _ => (false, host)
  end.

Definition isFixable (issue : Issue Host) : bool :=
  canAutoFix issue && match fixAction issue with Some _ => true | None => false end.

Record FixCounts : Type := { success : nat; failed : nat }.

(** The [for (let i = 0; i < fixableIssues.length; i++)] loop; [steps]
    bounds the iterations and is taken as the array length.  [onProgress]
    is the optional callback; it acts on the host and returns normally. *)
Fixpoint applyAllFixesLoop (steps : nat) (fixableIssues : list (Issue Host))
  (onProgress : option (nat -> nat -> Host -> Host))
  (i : nat) (counts : FixCounts) (host : Host) : FixCounts * Host :=
  match steps with
  | O => (counts, host)
  | S steps' =>
      if (i <? length fixableIssues)%nat then
        match fixableIssues !! i with
        | Some issue =>
            let '(result, host) := applyFix issue host in
            let counts :=
              if result
              then {| success := S (success counts); failed := failed counts |}
              else {| success := success counts; failed := S (failed counts) |} in
            let host :=
              match onProgress with
              | Some callback => callback (i + 1)%nat (length fixableIssues) host
              | None => host
              end in
            applyAllFixesLoop steps' fixableIssues onProgress (i + 1)%nat counts host
        | None => (counts, host)
        end
      else (counts, host)
  end.

Definition applyAllFixes (issues : list (Issue Host))
  (onProgress : option (nat -> nat -> Host -> Host)) (host : Host)
  : FixCounts * Host :=
  let fixableIssues := List.filter isFixable issues in
  applyAllFixesLoop (length fixableIssues) fixableIssues onProgress 0%nat
    {| success := 0; failed := 0 |} host.

End Fixers.

Arguments traverse framerGetChildren fuel node result : rename.
Arguments traverseEach framerGetChildren fuel nodes result : rename.
Arguments flattenNodes framerGetChildren fuel nodes : rename.
Arguments getEnabledRules {Host} allRules settings.
Arguments runRule {Host} node context st rule.
Arguments runNode {Host} enabled allNodesFlat settings st node.
Arguments initialAuditState {Host}.
Arguments auditNodes {Host} framerGetChildren allRules fuel startTime endTime nodes settings.
Arguments ruleErrorMsg {Host} rule node error.
Arguments sortBySeverity {Host} issues.
Arguments applyFix {Host} issue host.
Arguments isFixable {Host} issue.
Arguments applyAllFixesLoop {Host} steps fixableIssues onProgress i counts host.
Arguments applyAllFixes {Host} issues onProgress host.
Arguments st_issues {Host} _.
Arguments st_errors {Host} _.
Arguments st_seenIssues {Host} _.

(** ** The undo log ([core/fixers.ts])

    [undoStack] is module-level state; every function takes the array as
    it stands before the call and returns it as it stands after. *)

Record UndoEntry : Type := {
  undo_issueId : string;
  undo_nodeId : string;
  undo_property : string;
  undo_previousValue : JsValue;
  undo_timestamp : JsNumber
}.

Definition MAX_UNDO_ENTRIES : nat := 50.

(** [now] is the reading of [Date.now()]. *)
Definition storeUndo (undoStack : list UndoEntry)
  (issueId nodeId property : string) (previousValue : JsValue) (now : JsNumber)
  : list UndoEntry :=
  let entry := {| undo_issueId := issueId;
                  undo_nodeId := nodeId;
                  undo_property := property;
                  undo_previousValue := previousValue;
                  undo_timestamp := now |} in
  let undoStack := undoStack ++ [entry] in
  if (MAX_UNDO_ENTRIES <? length undoStack)%nat
  then tail undoStack
  else undoStack.

Definition getLastUndo (undoStack : list UndoEntry) (issueId : string)
  : option UndoEntry :=
  List.find (fun entry => String.eqb (undo_issueId entry) issueId) (rev undoStack).

Definition clearUndoHistory (undoStack : list UndoEntry) : list UndoEntry := [].

(** The calls a client can make on the log. *)
Inductive UndoCall : Type :=
| CallStoreUndo (issueId nodeId property : string) (previousValue : JsValue)
                (now : JsNumber)
| CallClearUndoHistory.

Definition runUndoCall (undoStack : list UndoEntry) (call : UndoCall)
  : list UndoEntry :=
  match call with
  | CallStoreUndo issueId nodeId property previousValue now =>
      storeUndo undoStack issueId nodeId property previousValue now
  | CallClearUndoHistory => clearUndoHistory undoStack
  end.

(** The log after a sequence of calls on a freshly loaded module. *)
Definition undoStackAfter (calls : list UndoCall) : list UndoEntry :=
  fold_left runUndoCall calls [].

Definition storeEntry (undoStack : list UndoEntry) (entry : UndoEntry)
  : list UndoEntry :=
  storeUndo undoStack (undo_issueId entry) (undo_nodeId entry)
    (undo_property entry) (undo_previousValue entry) (undo_timestamp entry).

(** ** The overflowing-text rule ([core/rules/overflowingText.ts]) *)

Section OverflowingText.

Variable Host : Type.

(** The conversion a template literal applies to a number. *)
Variable numberToString : JsNumber -> string.

Definition overflowingTextId : string := "overflowing-text".

Definition overflowingTextCheck (node : FramerNode) (context : AuditContext)
  : Settled (option (Issue Host)) :=
  if negb (isTextNode node) then Resolved None
  else
    match parent context with
    | None => Resolved None
    | Some parent =>
        if negb (isFrameNode parent) then Resolved None
        else
          let textHeight := getNodeHeight node in
          let parentHeight := getNodeHeight parent in
          let textWidth := getNodeWidth node in
          let parentWidth := getNodeWidth parent in
          let widthCheck :=
            match textWidth, parentWidth with
            | Some textWidth, Some parentWidth =>
                if JsNum.gt textWidth parentWidth then
                  Resolved (Some {|
                    issue_id := overflowingTextId +:+ "-width-" +:+ node_id node;
                    issue_node := createNodeRef node;
                    ruleId := overflowingTextId;
                    title := "Text overflows frame width";
                    description :=
                      "Text width (" +:+ numberToString textWidth +:+
                      "px) exceeds frame width (" +:+ numberToString parentWidth +:+
                      "px). Content may be clipped.";
                    severity := SeverityWarning;
                    category := Layout;
                    canAutoFix := true;
                    fixAction := Some (fun host => (Resolved tt, host));
                    metadata :=
                      [("textWidth", JsNum textWidth);
                       ("parentWidth", JsNum parentWidth);
                       ("overflow", JsNum (JsNum.sub textWidth parentWidth))] |})
                else Resolved None
            | _, _ => Resolved None
            end in
          match textHeight, parentHeight with
          | Some textHeight, Some parentHeight =>
              if JsNum.gt textHeight parentHeight then
                Resolved (Some {|
                  issue_id := overflowingTextId +:+ "-" +:+ node_id node;
                  issue_node := createNodeRef node;
                  ruleId := overflowingTextId;
                  title := "Text overflows its frame";
                  description :=
                    "Text height (" +:+ numberToString textHeight +:+
                    "px) exceeds frame height (" +:+ numberToString parentHeight +:+
                    "px). Content will be clipped.";
                  severity := SeverityError;
                  category := Layout;
                  canAutoFix := true;
                  fixAction := Some (fun host => (Resolved tt, host));
                  metadata :=
                    [("textHeight", JsNum textHeight);
                     ("parentHeight", JsNum parentHeight);
                     ("overflow", JsNum (JsNum.sub textHeight parentHeight))] |})
              else widthCheck
          | _, _ => widthCheck
          end
    end.

Definition overflowingTextRule : Rule Host := {|
  rule_id := overflowingTextId;
  rule_category := Layout;
  rule_name := "Overflowing Text";
  rule_description := "Detects text elements that overflow their container bounds";
  enabledByDefault := true;
  check := overflowingTextCheck
|}.

End OverflowingText.

Arguments overflowingTextCheck {Host} numberToString node context.
Arguments overflowingTextRule {Host} numberToString.

(* ================================================================== *)
(** * Part II.  Reference definitions used in the statements           *)
(* ================================================================== *)

(** ** Grid snapping *)

Definition gridBaseZ (gridBase : GridBase) : Z :=
  match gridBase with Grid4 => 4 | Grid8 => 8 end.

(** [nearestGridValue] of the finite [value] is a number equal to [r]. *)
Definition snapsTo (value : Q) (gridBase : GridBase) (r : Q) : Prop :=
  exists q, nearestGridValue (Finite value) gridBase = Finite q /\ (q == r)%Q.

(** The multiple of [base] nearest to [value], a tie going away from zero. *)
Definition nearestMultipleAwayFromZero (value : Q) (base : Z) : Q :=
  let k := Qfloor (Qabs value / inject_Z base + (1 # 2))%Q in
  inject_Z ((if JsNum.isNegative value then - k else k) * base).

(** ** Dimension strings *)

Fixpoint allChars (p : ascii -> bool) (s : string) : bool :=
  match s with
  | String c rest => p c && allChars p rest
  | EmptyString => true
  end.

(** [value] matches [/^([0-9.]+)px$/] with [group] captured. *)
Definition isPxPattern (value group : string) : Prop :=
  value = group +:+ "px" /\ group <> EmptyString /\
  allChars isDigitOrDot group = true.

(** A bare numeric string: the whole of [s] is one numeric literal. *)
Definition isNumericString (s : string) : bool :=
  match ParseFloat.parseFloatPrefix s with
  | Some (_, EmptyString) => true
  | _ => false
  end.

(** A ["<number>px"] string: a numeric string followed by [px]. *)
Definition isNumberPxString (s : string) : bool :=
  let n := String.length s in
  (2 <=? n)%nat && String.eqb (String.substring (n - 2) 2 s) "px"
  && isNumericString (String.substring 0 (n - 2) s).

(** ** Severity classes *)

Definition severityEqb (a b : Severity) : bool :=
  match a, b with
  | SeverityInfo, SeverityInfo
  | SeverityWarning, SeverityWarning
  | SeverityError, SeverityError => true
  | _, _ => false
  end.

(** The issues of severity [s], in the order of [issues]. *)
Definition withSeverity {Host : Type} (s : Severity) (issues : list (Issue Host))
  : list (Issue Host) :=
  List.filter (fun issue => severityEqb (severity issue) s) issues.

(** ** Overflow of a text node in its parent frame *)

(** [a !== undefined && b !== undefined && a > b] *)
Definition exceeds (a b : option JsNumber) : bool :=
  match a, b with
  | Some a, Some b => JsNum.gt a b
  | _, _ => false
  end.

Definition heightOverflows (node parent : FramerNode) : bool :=
  exceeds (getNodeHeight node) (getNodeHeight parent).

Definition widthOverflows (node parent : FramerNode) : bool :=
  exceeds (getNodeWidth node) (getNodeWidth parent).

(** ** The undo log *)

(** The entry a call of [storeUndo] builds. *)
Definition mkEntry (issueId nodeId property : string) (previousValue : JsValue)
  (now : JsNumber) : UndoEntry :=
  {| undo_issueId := issueId; undo_nodeId := nodeId; undo_property := property;
     undo_previousValue := previousValue; undo_timestamp := now |}.

(** ** Applying fixes one after the other *)

Definition countAttempt (result : bool) (counts : FixCounts) : FixCounts :=
  if result
  then {| success := S (success counts); failed := failed counts |}
  else {| success := success counts; failed := S (failed counts) |}.

(** The optional callback, taken to return normally. *)
Definition reportProgress {Host : Type}
  (onProgress : option (nat -> nat -> Host -> Host))
  (completed total : nat) (host : Host) : Host :=
  match onProgress with
  | Some callback => callback completed total host
  | None => host
  end.

(** The issues of [fixable] attempted one after the other in list order,
    each attempt followed by the progress report [(attempts so far, total)];
    [completed] attempts were made before. *)
Fixpoint attemptInOrder {Host : Type}
  (onProgress : option (nat -> nat -> Host -> Host)) (total completed : nat)
  (fixable : list (Issue Host)) (counts : FixCounts) (host : Host)
  : FixCounts * Host :=
  match fixable with
  | [] => (counts, host)
  | issue :: rest =>
      let '(result, host) := applyFix issue host in
      let host := reportProgress onProgress (S completed) total host in
      attemptInOrder onProgress total (S completed) rest
        (countAttempt result counts) host
  end.

(** The fix thunk of [issue], if any, resolves on every host state. *)
Definition thunkResolves {Host : Type} (issue : Issue Host) : Prop :=
  forall action host, fixAction issue = Some action ->
                      exists host', action host = (Resolved tt, host').

(** ** The rule pass, pair by pair *)

Section RulePass.

Context {Host : Type}.

(** The (node, rule) pairs in the order the two nested loops of
    [auditNodes] visit them. *)
Definition auditPairs (enabled : list (Rule Host)) (nodes : list FramerNode)
  : list (FramerNode * Rule Host) :=
  flat_map (fun node => List.map (pair node) enabled) nodes.

(** What [rule.check(node, context)] settles to for one pair. *)
Definition checkPair (allNodesFlat : list FramerNode) (settings : PluginSettings)
  (p : FramerNode * Rule Host) : Settled (option (Issue Host)) :=
  check (snd p) (fst p) (buildContext (fst p) allNodesFlat settings).

(** One pass through the body of the inner loop, for the pair [p]. *)
Definition runPair (allNodesFlat : list FramerNode) (settings : PluginSettings)
  (st : AuditState Host) (p : FramerNode * Rule Host) : AuditState Host :=
  runRule (fst p) (buildContext (fst p) allNodesFlat settings) st (snd p).

(** The issues the checks produce, in order of production. *)
Definition producedIssues (allNodesFlat : list FramerNode)
  (settings : PluginSettings) (pairs : list (FramerNode * Rule Host))
  : list (Issue Host) :=
  flat_map (fun p => match checkPair allNodesFlat settings p with
                     | Resolved (Some issue) => [issue]
                     | _ => []
                     end) pairs.

(** The messages for the checks that threw, in order. *)
Definition thrownErrors (allNodesFlat : list FramerNode)
  (settings : PluginSettings) (pairs : list (FramerNode * Rule Host))
  : list string :=
  flat_map (fun p => match checkPair allNodesFlat settings p with
                     | Rejected error => [ruleErrorMsg (snd p) (fst p) error]
                     | _ => []
                     end) pairs.

(** Keep an issue when its id was not [seen] and does not occur earlier. *)
Fixpoint firstById (seen : gset string) (produced : list (Issue Host))
  : list (Issue Host) :=
  match produced with
  | [] => []
  | issue :: rest =>
      if bool_decide (issue_id issue ∈ seen) then firstById seen rest
      else issue :: firstById ({[ issue_id issue ]} ∪ seen) rest
  end.

(** [issue] occurs in [produced] with no issue of the same id before it. *)
Definition isFirstOfItsId (issue : Issue Host) (produced : list (Issue Host))
  : Prop :=
  exists before after,
    produced = before ++ issue :: after /\
    Forall (fun earlier => issue_id earlier <> issue_id issue) before.

(** The settings select [rule]: its id is not in the disabled list and,
    the allow-list being non-empty, its id is in the allow-list, or, the
    allow-list being empty, the rule is enabled by default. *)
Definition ruleSelected (settings : PluginSettings) (rule : Rule Host) : Prop :=
  ~ In (rule_id rule) (disabledRules settings) /\
  match enabledRules settings with
  | [] => enabledByDefault rule = true
  | _ :: _ => In (rule_id rule) (enabledRules settings)
  end.

(** The message for a failed check: [Rule "<rule id>" failed on node
    "<node id>": <message>], the quotes being character 34. *)
Definition failureMessage (ruleId nodeId message : string) : string :=
  "Rule " +:+ String (ascii_of_nat 34) (ruleId +:+ String (ascii_of_nat 34)
    (" failed on node " +:+ String (ascii_of_nat 34) (nodeId +:+
       String (ascii_of_nat 34) (": " +:+ message)))).

End RulePass.

(** ** The tree the traversal walks *)

Section Walk.

Variable framerGetChildren : string -> ChildrenApiResult.

(** The children [traverse] goes on to visit from [node]. *)
Definition childrenWalked (node : FramerNode) : list FramerNode :=
  match framerGetChildren (node_id node) with
  | ApiReturns (Some children) => children
  | ApiReturns None => []
  | ApiThrows => getChildren node
  end.

Definition childOf (child node : FramerNode) : Prop :=
  In child (childrenWalked node).

Definition walksInto (node child : FramerNode) : Prop := childOf child node.

(** Depth-first discovery order: a node, then the walk of each of its
    children in turn. *)
Inductive walks : FramerNode -> list FramerNode -> Prop :=
| walks_node node below :
    walksAll (childrenWalked node) below -> walks node (node :: below)
with walksAll : list FramerNode -> list FramerNode -> Prop :=
| walksAll_nil : walksAll [] []
| walksAll_cons node more first rest :
    walks node first -> walksAll more rest ->
    walksAll (node :: more) (first ++ rest).

(** Some node that the traversal reaches from [root] is among its own
    descendants. *)
Definition cyclicBelow (root : FramerNode) : Prop :=
  exists node, rtc walksInto root node /\ tc walksInto node node.

End Walk.

Scheme walks_mutual := Minimality for walks Sort Prop
  with walksAll_mutual := Minimality for walksAll Sort Prop.
Combined Scheme walks_walksAll_ind from walks_mutual, walksAll_mutual.

(* ================================================================== *)
(** * Part III.  Sample data                                           *)
(* ================================================================== *)

Module Sample.

Definition px (z : Z) : option JsValue := Some (JsNum (JsNum.ofZ z)).

(** A text layer of 300 x 100 ... *)
Definition label : FramerNode := {|
  node_class := TextNode; node_id := "label"; node_name := Some "Title";
  node_visible := Some true; node_width := px 300; node_height := px 100;
  node_children := None |}.

(** ... inside a frame of 200 x 50. *)
Definition card : FramerNode := {|
  node_class := FrameNode; node_id := "card"; node_name := Some "Card";
  node_visible := Some true; node_width := px 200; node_height := px 50;
  node_children := Some [label] |}.

Definition noNumberToString (n : JsNumber) : string := "?".

Definition labelContext : AuditContext :=
  buildContext label [card; label] DEFAULT_SETTINGS.

(** A host whose provider is unavailable: the embedded children are used. *)
Definition offlineHost (id : string) : ChildrenApiResult := ApiThrows.

(** A host that reports the card as a child of every node, itself included. *)
Definition loopingHost (id : string) : ChildrenApiResult :=
  ApiReturns (Some [card]).

(** A rule whose check throws on every node. *)
Definition brokenRule : Rule unit := {|
  rule_id := "broken"; rule_category := Hierarchy; rule_name := "Broken";
  rule_description := "Always throws"; enabledByDefault := true;
  check := fun _ _ => Rejected (ErrorObject "boom") |}.

Definition textRule : Rule unit := overflowingTextRule noNumberToString.

Definition clock : JsNumber := JsNum.ofZ 0.

(** Settings that allow-list both rules and disable the broken one. *)
Definition disablingSettings : PluginSettings := {|
  spacingGrid := Grid8;
  confirmAutoFix := true;
  enabledRules := ["broken"; "overflowing-text"];
  disabledRules := ["broken"];
  analyticsEnabled := false;
  maxDisplayedIssues := JsNum.ofZ 100 |}.

(** Fifty-one undo entries with the issue ids ["0"], ["1"], ... *)
Definition undoEntry (n : nat) : UndoEntry := {|
  undo_issueId := String (ascii_of_nat (48 + n)) EmptyString;
  undo_nodeId := "card";
  undo_property := "width";
  undo_previousValue := JsNum (JsNum.ofZ (Z.of_nat n));
  undo_timestamp := JsNum.ofZ (Z.of_nat n) |}.

Definition middleEntries : list UndoEntry := List.map undoEntry (seq 1 49).

(** A host that records what was done to it. *)
Inductive Event : Type :=
| Fixed (issueId : string)
| Progress (completed total : nat).

Definition issueWith (id : string) (fixable : bool)
  (action : option (FixAction (list Event))) : Issue (list Event) := {|
  issue_id := id; issue_node := createNodeRef card; ruleId := "sample";
  title := ""; description := ""; severity := SeverityWarning;
  category := Layout; canAutoFix := fixable; fixAction := action;
  metadata := [] |}.

Definition recordFix (id : string) : FixAction (list Event) :=
  fun host => (Resolved tt, host ++ [Fixed id]).

Definition threeIssues : list (Issue (list Event)) :=
  [ issueWith "a" true (Some (recordFix "a"));
    issueWith "b" false None;
    issueWith "c" true (Some (recordFix "c")) ].

Definition recordProgress : option (nat -> nat -> list Event -> list Event) :=
  Some (fun completed total host => host ++ [Progress completed total]).

End Sample.

(* ================================================================== *)
(** * Part IV.  Theorems                                              *)
(* ================================================================== *)

(** ** Grid snapping *)

Lemma gridBaseValue_Z gridBase :
  gridBaseValue gridBase = Finite (inject_Z (gridBaseZ gridBase)).
Proof. by destruct gridBase. Qed.

Lemma gridBaseZ_pos gridBase : (0 < gridBaseZ gridBase)%Z.
Proof. destruct gridBase; simpl; lia. Qed.

Lemma nearestGridValue_finite value gridBase :
  nearestGridValue (Finite value) gridBase =
  Finite (inject_Z (Qfloor (value / inject_Z (gridBaseZ gridBase) + (1 # 2))%Q)
          * inject_Z (gridBaseZ gridBase))%Q.
Proof. by destruct gridBase. Qed.

Lemma truncate_integer (q : Q) (k : Z) : (q == inject_Z k)%Q -> JsNum.truncate q = k.
Proof.
  destruct q as [n d]. unfold Qeq, JsNum.truncate. simpl. intros H.
  rewrite Z.mul_1_r in H. subst n. apply Z.quot_mul. lia.
Qed.

Lemma isOnGrid_finite value gridBase :
  isOnGrid (Finite value) gridBase = true <->
  exists k : Z, (value == inject_Z k * inject_Z (gridBaseZ gridBase))%Q.
Proof.
  pose proof (gridBaseZ_pos gridBase) as Hpos.
  set (b := gridBaseZ gridBase) in *.
  assert (Hb : ~ (inject_Z b == 0)%Q).
  { unfold Qeq. simpl. lia. }
  unfold isOnGrid. rewrite gridBaseValue_Z. fold b. simpl.
  replace (JsNum.isZero (inject_Z b)) with false
    by (unfold JsNum.isZero; simpl; symmetry; apply Z.eqb_neq; lia).
  change (JsNum.strictEq (Finite ?a) (JsNum.ofZ 0)) with (Qeq_bool a 0).
  rewrite Qeq_bool_iff. split.
  - intros H. exists (JsNum.truncate (value / inject_Z b)).
    rewrite (Qmult_comm (inject_Z _)).
    apply Qplus_inj_r
      with (z := (- (inject_Z b * inject_Z (JsNum.truncate (value / inject_Z b))))%Q).
    rewrite Qplus_opp_r. exact H.
  - intros [k Hk].
    assert (Ht : JsNum.truncate (value / inject_Z b) = k).
    { apply truncate_integer. rewrite Hk.
      rewrite Qdiv_mult_l; [reflexivity | exact Hb]. }
    rewrite Ht, Hk. ring.
Qed.

(** C7, as stated, fails: [nearestGridValue(-2, 4)] is [Math.round(-0.5) * 4],
    which is zero, while rounding the tie away from zero gives [-4]. *)
Lemma nearestGridValue_tie_not_away_from_zero :
  ~ snapsTo (-2) Grid4 (nearestMultipleAwayFromZero (-2) 4).
Proof.
  intros (q & Hq & Heq). vm_compute in Hq. injection Hq as <-.
  vm_compute in Heq. discriminate.
Qed.

(** C7, amended.  For every finite [value] and either grid base,
    [nearestGridValue] returns a multiple [k * base] of the base that is
    nearest to [value]: it lies at most [base / 2] above and strictly less
    than [base / 2] below, so a half-way tie goes to the larger multiple
    (toward positive infinity), also for negative values.  [isOnGrid] is
    true exactly when [value] is an integer multiple of the base. *)
Theorem nearestGridValue_round_half_up (value : Q) (gridBase : GridBase) :
  (exists k : Z,
      snapsTo value gridBase (inject_Z k * inject_Z (gridBaseZ gridBase)) /\
      (2 * (inject_Z k * inject_Z (gridBaseZ gridBase) - value)
         <= inject_Z (gridBaseZ gridBase))%Q /\
      (2 * (value - inject_Z k * inject_Z (gridBaseZ gridBase))
         < inject_Z (gridBaseZ gridBase))%Q) /\
  (isOnGrid (Finite value) gridBase = true <->
   exists k : Z, (value == inject_Z k * inject_Z (gridBaseZ gridBase))%Q).
Proof.
  split; [| apply isOnGrid_finite].
  pose proof (gridBaseZ_pos gridBase) as Hpos.
  set (b := gridBaseZ gridBase) in *.
  assert (Hb : (0 < inject_Z b)%Q) by (unfold Qlt; simpl; lia).
  set (x := (value / inject_Z b + (1 # 2))%Q).
  assert (Hx : (x * inject_Z b == value + inject_Z b * (1 # 2))%Q).
  { unfold x. field. intros H0. rewrite H0 in Hb. by apply Qlt_irrefl in Hb. }
  pose proof (Qfloor_le x) as Hle.
  pose proof (Qlt_floor x) as Hlt.
  apply (Qmult_le_compat_r _ _ (inject_Z b)) in Hle; [| by apply Qlt_le_weak].
  apply (Qmult_lt_compat_r _ _ (inject_Z b)) in Hlt; [| exact Hb].
  rewrite Hx in Hle, Hlt. rewrite inject_Z_plus in Hlt.
  exists (Qfloor x). split.
  - exists (inject_Z (Qfloor x) * inject_Z b)%Q. split; [| reflexivity].
    rewrite nearestGridValue_finite. reflexivity.
  - assert (Hd : ((inject_Z (Qfloor x) + inject_Z 1) * inject_Z b ==
                  inject_Z (Qfloor x) * inject_Z b + inject_Z b)%Q) by ring.
    rewrite Hd in Hlt. clear Hd Hx.
    set (m := (inject_Z (Qfloor x) * inject_Z b)%Q) in *.
    set (c := inject_Z b) in *. clearbody m c. split; lra.
Qed.

(** ** Dimension parsing *)

Lemma takeDigitsAndDots_split (s run tl : string) :
  takeDigitsAndDots s = (run, tl) ->
  s = run +:+ tl /\ allChars isDigitOrDot run = true /\
  match tl with String c _ => isDigitOrDot c = false | EmptyString => True end.
Proof.
  revert run tl. induction s as [| c s IH]; simpl; intros run tl H.
  - by inversion H.
  - destruct (isDigitOrDot c) eqn:Hc.
    + destruct (takeDigitsAndDots s) as [run' tl'] eqn:Hs.
      inversion H; subst. destruct (IH _ _ eq_refl) as (-> & Hall & Htl).
      simpl. by rewrite Hc, Hall.
    + inversion H; subst. simpl. by rewrite Hc.
Qed.

Lemma takeDigitsAndDots_app (run tl : string) :
  allChars isDigitOrDot run = true ->
  match tl with String c _ => isDigitOrDot c = false | EmptyString => True end ->
  takeDigitsAndDots (run +:+ tl) = (run, tl).
Proof.
  intros Hall Htl. induction run as [| c run IH]; simpl in *.
  - destruct tl as [| c tl]; [done |]. simpl. by rewrite Htl.
  - apply andb_true_iff in Hall as [Hc Hall]. by rewrite Hc, IH.
Qed.

Lemma matchPx_spec (value group : string) :
  matchPx value = Some group <-> isPxPattern value group.
Proof.
  unfold matchPx, isPxPattern. split.
  - destruct (takeDigitsAndDots value) as [run tl] eqn:Hs.
    apply takeDigitsAndDots_split in Hs as (-> & Hall & _).
    destruct run as [| c run]; [done |].
    destruct (String.eqb tl "px") eqn:Htl; [| done].
    apply String.eqb_eq in Htl as ->. intros [= <-]. done.
  - intros (-> & Hne & Hall).
    rewrite takeDigitsAndDots_app; [| done | done].
    destruct group; [done |]. done.
Qed.

Lemma matchPx_none (value : string) :
  matchPx value = None <-> forall group, ~ isPxPattern value group.
Proof.
  split.
  - intros H group Hp. apply matchPx_spec in Hp. congruence.
  - intros H. destruct (matchPx value) as [group |] eqn:Hm; [| done].
    apply matchPx_spec in Hm. by apply H in Hm.
Qed.

Lemma pxPattern_not_fill (value group : string) :
  isPxPattern value group ->
  String.eqb value "fill" || String.eqb value "1fr" = false.
Proof.
  intros (-> & Hne & Hall).
  destruct group as [| c group]; [done |]. simpl in Hall.
  apply andb_true_iff in Hall as [Hc Hall].
  apply orb_false_iff. split; apply String.eqb_neq; intros Heq.
  - simpl in Heq. injection Heq as -> _. vm_compute in Hc. discriminate.
  - simpl in Heq. injection Heq as -> Heq.
    destruct group as [| c group]; [discriminate |].
    simpl in Heq, Hall. injection Heq as -> _. vm_compute in Hall. discriminate.
Qed.

(** C8, as stated, fails: ["100%"] is none of the listed inputs, and
    [parseDimension] returns [100] for it. *)
Lemma parseDimension_percent_is_number :
  isNumericString "100%" = false /\ isNumberPxString "100%" = false /\
  parseDimension (JsStr "100%") = Some (DimNumber (JsNum.ofZ 100)).
Proof. by vm_compute. Qed.

(** C8, amended.  [parseDimension] returns the number itself for numeric
    input; the fill sentinel for exactly the strings ["fill"] and ["1fr"];
    for a string that is a non-empty run of digits and dots followed by
    ["px"], what [parseFloat] reads from that run, when it reads a number;
    for any other string, the value of the numeric literal [parseFloat]
    finds at its head, and [undefined] when there is none, as for ["hug"];
    and [undefined] for a value that is neither a number nor a string. *)
Theorem parseDimension_cases :
  (forall n, parseDimension (JsNum n) = Some (DimNumber n)) /\
  (forall s, parseDimension (JsStr s) = Some DimFill <-> s = "fill" \/ s = "1fr") /\
  (forall s group,
      isPxPattern s group ->
      JsNum.isNaN (ParseFloat.parseFloat group) = false ->
      parseDimension (JsStr s) = Some (DimNumber (ParseFloat.parseFloat group))) /\
  (forall s,
      s <> "fill" -> s <> "1fr" -> (forall group, ~ isPxPattern s group) ->
      parseDimension (JsStr s) =
      if JsNum.isNaN (ParseFloat.parseFloat s) then None
      else Some (DimNumber (ParseFloat.parseFloat s))) /\
  parseDimension (JsStr "hug") = None /\
  (forall v, (forall n, v <> JsNum n) -> (forall s, v <> JsStr s) ->
             parseDimension v = None).
Proof.
  repeat split.
  - simpl. destruct (String.eqb s "fill" || String.eqb s "1fr") eqn:Hs.
    + intros _. apply orb_true_iff in Hs as [Hs | Hs];
        apply String.eqb_eq in Hs; auto.
    + destruct (matchPx s); [done |].
      by destruct (negb (JsNum.isNaN (ParseFloat.parseFloat s))).
  - intros [-> | ->]; reflexivity.
  - intros s group Hp _. simpl.
    rewrite (pxPattern_not_fill _ _ Hp).
    apply matchPx_spec in Hp. by rewrite Hp.
  - intros s Hfill Hfr Hpx. simpl.
    apply String.eqb_neq in Hfill, Hfr. rewrite Hfill, Hfr. simpl.
    apply matchPx_none in Hpx. rewrite Hpx.
    by destruct (JsNum.isNaN (ParseFloat.parseFloat s)).
  - intros v Hn Hs. destruct v; try reflexivity.
    + by destruct (Hn n).
    + by destruct (Hs s).
Qed.

(** The cases at ["109px"], ["12 px"], ["auto"] and [null]. *)
Lemma parseDimension_cases_witness :
  parseDimension (JsStr "109px") = Some (DimNumber (JsNum.ofZ 109)) /\
  parseDimension (JsStr "12 px") = Some (DimNumber (JsNum.ofZ 12)) /\
  parseDimension (JsStr "auto") = None /\
  parseDimension JsNull = None.
Proof.
  destruct parseDimension_cases as (_ & _ & Hpx & Hother & _ & Hrest).
  split; [| split; [| split]].
  - apply (Hpx "109px" "109"); [by vm_compute | reflexivity].
  - apply (Hother "12 px"); [discriminate | discriminate |].
    apply matchPx_none. reflexivity.
  - apply (Hother "auto"); [discriminate | discriminate |].
    apply matchPx_none. reflexivity.
  - apply Hrest; discriminate.
Defined.

(** ** Sorting by severity *)

Section Sorting.

Context {A : Type} (compareFn : A -> A -> Z).

Lemma sortInsert_skip (x : A) (before after : list A) :
  Forall (fun y => (0 < compareFn x y)%Z) before ->
  sortInsert compareFn x (before ++ after) = before ++ sortInsert compareFn x after.
Proof.
  induction 1 as [| y before Hy _ IH]; simpl; [done |].
  apply Z.ltb_lt in Hy. by rewrite Hy, IH.
Qed.

Lemma sortInsert_here (x : A) (after : list A) :
  Forall (fun y => (compareFn x y <= 0)%Z) after ->
  sortInsert compareFn x after = x :: after.
Proof.
  destruct 1 as [| y after Hy _]; simpl; [done |].
  apply Z.ltb_ge in Hy. by rewrite Hy.
Qed.

Lemma sortInsert_Permutation (x : A) (l : list A) :
  Permutation (x :: l) (sortInsert compareFn x l).
Proof.
  induction l as [| y l IH]; simpl; [done |].
  destruct (0 <? compareFn x y)%Z; [| done].
  rewrite perm_swap. by constructor.
Qed.

Lemma arraySort_Permutation (l : list A) : Permutation l (arraySort compareFn l).
Proof.
  induction l as [| x l IH]; simpl; [done |].
  rewrite <- sortInsert_Permutation. by constructor.
Qed.

End Sorting.

Lemma withSeverity_Forall {Host : Type} (s : Severity) (issues : list (Issue Host)) :
  Forall (fun issue => severity issue = s) (withSeverity s issues).
Proof.
  apply List.Forall_forall. intros issue Hin.
  apply List.filter_In in Hin as [_ Hs]. by destruct (severity issue), s.
Qed.

(** C9.  [sortBySeverity] returns a permutation of its input that is the
    ['error'] issues, then the ['warning'] issues, then the ['info'] issues,
    each class in its input order: every error precedes every warning,
    every warning precedes every info, and the sort is stable. *)
Theorem sortBySeverity_stable_partition {Host : Type} (issues : list (Issue Host)) :
  Permutation issues (sortBySeverity issues) /\
  sortBySeverity issues =
    withSeverity SeverityError issues ++
    withSeverity SeverityWarning issues ++
    withSeverity SeverityInfo issues.
Proof.
  split; [apply arraySort_Permutation |].
  unfold sortBySeverity.
  induction issues as [| x issues IH]; [done |].
  change (arraySort ?f (x :: issues)) with (sortInsert f x (arraySort f issues)).
  rewrite IH. clear IH.
  pose proof (withSeverity_Forall SeverityError issues) as HE.
  pose proof (withSeverity_Forall SeverityWarning issues) as HW.
  pose proof (withSeverity_Forall SeverityInfo issues) as HI.
  unfold withSeverity at 4 5 6. simpl.
  fold (withSeverity SeverityError issues) (withSeverity SeverityWarning issues)
       (withSeverity SeverityInfo issues).
  destruct (severity x) eqn:Hx; simpl.
  - rewrite app_assoc, sortInsert_skip, sortInsert_here, <- app_assoc; [done | |].
    + eapply Forall_impl; [exact HI |]. intros y ->. rewrite Hx. simpl. lia.
    + apply Forall_app. split; (eapply Forall_impl; [eassumption |]);
        intros y ->; rewrite Hx; simpl; lia.
  - rewrite sortInsert_skip, sortInsert_here; [done | |].
    + apply Forall_app. split; (eapply Forall_impl; [eassumption |]);
        intros y ->; rewrite Hx; simpl; lia.
    + eapply Forall_impl; [exact HE |]. intros y ->. rewrite Hx. simpl. lia.
  - rewrite sortInsert_here; [done |].
    repeat (apply Forall_app; split); (eapply Forall_impl; [eassumption |]);
      intros y Hy; rewrite Hx; destruct (severity y); simpl; lia.
Qed.

(** ** The overflowing-text rule *)

Ltac returns_issue := eexists; split; [reflexivity | by split].

Ltac width_branch node frame Hw :=
  destruct (getNodeWidth node) as [tw |], (getNodeWidth frame) as [pw |];
  try discriminate; rewrite Hw; returns_issue.

(** C10.  For a text node whose parent is a frame: when the height
    overflows, the check returns the height issue (severity ['error'], id
    ['overflowing-text-<nodeId>']) whatever the widths are; the width issue
    (severity ['warning'], id ['overflowing-text-width-<nodeId>']) is
    returned when the width overflows and the height does not; and a
    returned issue of severity ['warning'] implies that the height does not
    overflow.  The check returns one issue or none. *)
Theorem overflowingText_height_first {Host : Type}
  (numberToString : JsNumber -> string)
  (node : FramerNode) (context : AuditContext) (frame : FramerNode) :
  isTextNode node = true ->
  parent context = Some frame ->
  isFrameNode frame = true ->
  (heightOverflows node frame = true ->
   exists issue : Issue Host,
     overflowingTextCheck numberToString node context = Resolved (Some issue) /\
     severity issue = SeverityError /\
     issue_id issue = "overflowing-text-" +:+ node_id node) /\
  (heightOverflows node frame = false -> widthOverflows node frame = true ->
   exists issue : Issue Host,
     overflowingTextCheck numberToString node context = Resolved (Some issue) /\
     severity issue = SeverityWarning /\
     issue_id issue = "overflowing-text-width-" +:+ node_id node) /\
  (forall issue : Issue Host,
     overflowingTextCheck numberToString node context = Resolved (Some issue) ->
     severity issue = SeverityWarning ->
     heightOverflows node frame = false).
Proof.
  intros Htext Hparent Hframe.
  unfold overflowingTextCheck, heightOverflows, widthOverflows, exceeds.
  rewrite Htext, Hparent, Hframe. simpl.
  destruct (getNodeHeight node) as [th |], (getNodeHeight frame) as [ph |];
    try destruct (JsNum.gt th ph).
  all: split; [| split].
  all: first
    [ discriminate
    | intros _; returns_issue
    | intros issue [= <-]; discriminate
    | intros _ Hw; width_branch node frame Hw
    | by intros ].
Qed.

(** A 300 x 100 label in a 200 x 50 card: both dimensions overflow and the
    height issue is the one returned. *)
Lemma overflowingText_height_first_witness :
  exists issue : Issue unit,
    overflowingTextCheck Sample.noNumberToString Sample.label Sample.labelContext
      = Resolved (Some issue) /\
    severity issue = SeverityError /\
    issue_id issue = "overflowing-text-label".
Proof.
  apply (overflowingText_height_first Sample.noNumberToString
           Sample.label Sample.labelContext Sample.card);
    reflexivity.
Defined.

(** ** The undo log *)

Ltac capacity_lia := unfold MAX_UNDO_ENTRIES in *; simpl in *; lia.

Lemma storeUndo_below (undoStack : list UndoEntry) issueId nodeId property
  previousValue now :
  length undoStack < MAX_UNDO_ENTRIES ->
  storeUndo undoStack issueId nodeId property previousValue now =
  undoStack ++ [mkEntry issueId nodeId property previousValue now].
Proof.
  unfold storeUndo, MAX_UNDO_ENTRIES. intros Hlen.
  rewrite length_app. simpl.
  destruct (Nat.ltb_spec 50 (length undoStack + 1)); [lia | done].
Qed.

Lemma storeUndo_full (undoStack : list UndoEntry) issueId nodeId property
  previousValue now :
  length undoStack = MAX_UNDO_ENTRIES ->
  storeUndo undoStack issueId nodeId property previousValue now =
  tail undoStack ++ [mkEntry issueId nodeId property previousValue now].
Proof.
  unfold storeUndo, MAX_UNDO_ENTRIES. intros Hlen.
  rewrite length_app. simpl.
  destruct (Nat.ltb_spec 50 (length undoStack + 1)); [| lia].
  destruct undoStack; [discriminate | done].
Qed.

Lemma storeUndo_length (undoStack : list UndoEntry) issueId nodeId property
  previousValue now :
  length undoStack <= MAX_UNDO_ENTRIES ->
  length (storeUndo undoStack issueId nodeId property previousValue now)
    <= MAX_UNDO_ENTRIES.
Proof.
  intros Hlen. destruct (decide (length undoStack = MAX_UNDO_ENTRIES)) as [Heq | Hne].
  - rewrite storeUndo_full by done. rewrite length_app.
    destruct undoStack; capacity_lia.
  - rewrite storeUndo_below by lia. rewrite length_app. capacity_lia.
Qed.

Lemma undoStackAfter_length (calls : list UndoCall) :
  length (undoStackAfter calls) <= MAX_UNDO_ENTRIES.
Proof.
  unfold undoStackAfter.
  induction calls as [| call calls IH] using rev_ind.
  - capacity_lia.
  - rewrite fold_left_app. simpl.
    destruct call; simpl; [by apply storeUndo_length | capacity_lia].
Qed.

Lemma storeEntry_drop (entries : list UndoEntry) :
  fold_left storeEntry entries [] =
  drop (length entries - MAX_UNDO_ENTRIES) entries.
Proof.
  induction entries as [| entry entries IH] using rev_ind; [done |].
  rewrite fold_left_app, IH, length_app. simpl. unfold storeEntry.
  assert (Hentry : mkEntry (undo_issueId entry) (undo_nodeId entry)
            (undo_property entry) (undo_previousValue entry)
            (undo_timestamp entry) = entry) by by destruct entry.
  destruct (decide (length entries < MAX_UNDO_ENTRIES)) as [Hlt | Hge].
  - rewrite storeUndo_below by (rewrite length_drop; lia).
    replace (length entries - MAX_UNDO_ENTRIES) with 0 by lia.
    replace (length entries + 1 - MAX_UNDO_ENTRIES) with 0 by capacity_lia.
    by rewrite Hentry.
  - rewrite storeUndo_full by (rewrite length_drop; capacity_lia).
    rewrite Hentry.
    replace (length entries + 1 - MAX_UNDO_ENTRIES)
      with (S (length entries - MAX_UNDO_ENTRIES)) by capacity_lia.
    rewrite drop_app_le by capacity_lia.
    f_equal. generalize (length entries - MAX_UNDO_ENTRIES). clear.
    intros n. revert entries.
    induction n as [| n IH]; intros [| e entries]; simpl; auto.
Qed.

Lemma getLastUndo_none (undoStack : list UndoEntry) (issueId : string) :
  getLastUndo undoStack issueId = None <->
  Forall (fun entry => undo_issueId entry <> issueId) undoStack.
Proof.
  unfold getLastUndo. split.
  - intros H. apply List.Forall_forall. intros entry Hin Heq.
    apply List.in_rev in Hin.
    apply (List.find_none _ _ H) in Hin. apply String.eqb_neq in Hin. done.
  - intros H. destruct (List.find _ _) as [entry |] eqn:Hfind; [| done].
    apply List.find_some in Hfind as [Hin Heq].
    apply List.in_rev in Hin. apply String.eqb_eq in Heq.
    rewrite List.Forall_forall in H. by apply H in Hin.
Qed.

Lemma getLastUndo_newest (older newer : list UndoEntry) (entry : UndoEntry) :
  Forall (fun e => undo_issueId e <> undo_issueId entry) newer ->
  getLastUndo (older ++ entry :: newer) (undo_issueId entry) = Some entry.
Proof.
  intros Hnewer. unfold getLastUndo.
  rewrite rev_app_distr. simpl. rewrite <- app_assoc. simpl.
  induction newer as [| e newer IH] using rev_ind.
  - simpl. by rewrite String.eqb_refl.
  - apply Forall_app in Hnewer as [Hnewer He].
    apply Forall_inv in He. apply String.eqb_neq in He.
    rewrite rev_app_distr. simpl. rewrite He. by apply IH.
Qed.

(** C6.  Whatever calls were made since the module was loaded, the undo log
    holds at most 50 entries.  A [storeUndo] on a log below capacity appends
    the entry; on a full log it drops the oldest entry and appends the new
    one, the others keeping their order.  [getLastUndo] returns the newest
    entry with the given issue id, and [undefined] exactly when no entry
    has it.  After 51 entries with pairwise distinct issue ids have been
    stored, the first one's id is not found and the 51st one's id finds the
    51st entry. *)
Theorem undo_log_bounded_fifo :
  (forall calls, length (undoStackAfter calls) <= 50) /\
  (forall undoStack issueId nodeId property previousValue now,
      length undoStack <= 50 ->
      storeUndo undoStack issueId nodeId property previousValue now =
      (if bool_decide (length undoStack < 50) then undoStack else tail undoStack)
      ++ [mkEntry issueId nodeId property previousValue now]) /\
  (forall older newer entry,
      Forall (fun e => undo_issueId e <> undo_issueId entry) newer ->
      getLastUndo (older ++ entry :: newer) (undo_issueId entry) = Some entry) /\
  (forall undoStack issueId,
      getLastUndo undoStack issueId = None <->
      Forall (fun e => undo_issueId e <> issueId) undoStack) /\
  (forall first middle last,
      length middle = 49 ->
      NoDup (List.map undo_issueId (first :: middle ++ [last])) ->
      let undoStack := fold_left storeEntry (first :: middle ++ [last]) [] in
      getLastUndo undoStack (undo_issueId first) = None /\
      getLastUndo undoStack (undo_issueId last) = Some last).
Proof.
  split; [exact undoStackAfter_length |].
  split.
  { intros undoStack issueId nodeId property previousValue now Hlen.
    case_bool_decide.
    - by apply storeUndo_below.
    - apply storeUndo_full. capacity_lia. }
  split; [exact getLastUndo_newest |].
  split; [exact getLastUndo_none |].
  intros first middle last Hlen Hnodup undoStack.
  assert (Hstack : undoStack = middle ++ [last]).
  { unfold undoStack. rewrite storeEntry_drop. simpl.
    rewrite length_app, Hlen. reflexivity. }
  rewrite Hstack. simpl in Hnodup. apply NoDup_cons in Hnodup as [Hfirst Hrest].
  split.
  - apply getLastUndo_none. apply List.Forall_forall. intros e He Heq.
    apply Hfirst. rewrite <- Heq. apply list_elem_of_In. by apply List.in_map.
  - apply (getLastUndo_newest middle [] last). constructor.
Qed.

(** Fifty-one entries with the ids ["0"] to ["b"]: the first is gone, the
    last is found. *)
Lemma undo_log_bounded_fifo_witness :
  let undoStack :=
    fold_left storeEntry
      (Sample.undoEntry 0 :: Sample.middleEntries ++ [Sample.undoEntry 50]) [] in
  getLastUndo undoStack "0" = None /\
  getLastUndo undoStack "b" = Some (Sample.undoEntry 50).
Proof.
  destruct undo_log_bounded_fifo as (_ & _ & _ & _ & H).
  apply (H (Sample.undoEntry 0) Sample.middleEntries (Sample.undoEntry 50)).
  - reflexivity.
  - apply (bool_decide_unpack _). by vm_compute.
Defined.

(** ** Batch application of fixes *)

Section ApplyAllFixes.

Context {Host : Type}.
Implicit Types (issue : Issue Host) (issues fixable : list (Issue Host)).
Implicit Types (onProgress : option (nat -> nat -> Host -> Host)).

Lemma isFixable_spec issue :
  isFixable issue = true <->
  canAutoFix issue = true /\ exists action, fixAction issue = Some action.
Proof.
  unfold isFixable. destruct (canAutoFix issue), (fixAction issue); simpl;
    split; try done; try (intros [? [? ?]]; done); eauto.
Qed.

(** The indexed loop walks the array from [i] to its end. *)
Lemma applyAllFixesLoop_attemptInOrder onProgress before rest counts host :
  applyAllFixesLoop (length rest) (before ++ rest) onProgress (length before)
    counts host =
  attemptInOrder onProgress (length (before ++ rest)) (length before) rest
    counts host.
Proof.
  revert before counts host.
  induction rest as [| issue rest IH]; intros before counts host; [done |].
  simpl.
  destruct (Nat.ltb_spec (length before) (length (before ++ issue :: rest)))
    as [_ | Hge]; [| rewrite length_app in Hge; simpl in Hge; lia].
  rewrite list_lookup_middle by done.
  destruct (applyFix issue host) as [result host'].
  specialize (IH (before ++ [issue])).
  rewrite <- app_assoc, length_app in IH. simpl in IH.
  replace (length before + 1) with (S (length before)) in * by lia.
  fold (reportProgress onProgress (S (length before))
          (length (before ++ issue :: rest)) host').
  fold (countAttempt result counts).
  apply IH.
Qed.

Lemma attemptInOrder_total onProgress total completed fixable counts host :
  let counts' := fst (attemptInOrder onProgress total completed fixable counts host) in
  success counts' + failed counts' =
  success counts + failed counts + length fixable.
Proof.
  revert completed counts host.
  induction fixable as [| issue fixable IH]; intros completed counts host; simpl.
  - lia.
  - destruct (applyFix issue host) as [result host'].
    simpl in IH. rewrite IH. destruct result; simpl; lia.
Qed.

Lemma attemptInOrder_all_resolve onProgress total completed fixable counts host :
  Forall (fun issue => isFixable issue = true /\ thunkResolves issue) fixable ->
  fst (attemptInOrder onProgress total completed fixable counts host) =
  {| success := success counts + length fixable; failed := failed counts |}.
Proof.
  intros Hall. revert completed counts host.
  induction Hall as [| issue fixable [Hfix Hres] _ IH];
    intros completed counts host; simpl.
  - destruct counts. simpl. f_equal. lia.
  - apply isFixable_spec in Hfix as [Hcan [action Haction]].
    unfold applyFix. rewrite Hcan, Haction.
    destruct (Hres action host Haction) as [host' ->].
    rewrite IH. simpl. f_equal. lia.
Qed.


End ApplyAllFixes.


(** ** The rule pass of the audit *)

Section RulePassFacts.

Context {Host : Type}.
Implicit Types (st : @AuditState Host) (issue : Issue Host).
Implicit Types (produced : list (Issue Host)) (seen : gset string).

Variables (allNodesFlat : list FramerNode) (settings : PluginSettings).

Lemma runRule_pairs (node : FramerNode) (rules : list (Rule Host)) st :
  fold_left (runRule node (buildContext node allNodesFlat settings)) rules st =
  fold_left (runPair allNodesFlat settings) (List.map (pair node) rules) st.
Proof.
  revert st. induction rules as [| rule rules IH]; intros st; [done |].
  simpl. by rewrite IH.
Qed.

Lemma runNode_pairs (enabled : list (Rule Host)) (nodes : list FramerNode) st :
  fold_left (runNode enabled allNodesFlat settings) nodes st =
  fold_left (runPair allNodesFlat settings) (auditPairs enabled nodes) st.
Proof.
  revert st. induction nodes as [| node nodes IH]; intros st; [done |].
  simpl. rewrite fold_left_app, <- IH. f_equal. apply runRule_pairs.
Qed.

Lemma runPair_issues (pairs : list (FramerNode * Rule Host)) st :
  st_issues (fold_left (runPair allNodesFlat settings) pairs st) =
  st_issues st ++
  firstById (st_seenIssues st) (producedIssues allNodesFlat settings pairs).
Proof.
  revert st. induction pairs as [| p pairs IH]; intros st; simpl.
  - by rewrite app_nil_r.
  - rewrite IH. unfold runPair, runRule, checkPair.
    destruct (check (snd p) (fst p) _) as [[issue |] | error]; simpl; try done.
    case_bool_decide; simpl; [done |]. by rewrite <- app_assoc.
Qed.

Lemma runPair_errors (pairs : list (FramerNode * Rule Host)) st :
  st_errors (fold_left (runPair allNodesFlat settings) pairs st) =
  st_errors st ++ thrownErrors allNodesFlat settings pairs.
Proof.
  revert st. induction pairs as [| p pairs IH]; intros st; simpl.
  - by rewrite app_nil_r.
  - rewrite IH. unfold runPair, runRule, checkPair.
    destruct (check (snd p) (fst p) _) as [[issue |] | error]; simpl; try done.
    + by case_bool_decide.
    + by rewrite <- app_assoc.
Qed.

Lemma firstById_fresh seen produced issue :
  In issue (firstById seen produced) -> (issue_id issue ∉ seen).
Proof.
  revert seen. induction produced as [| x produced IH]; intros seen; simpl; [done |].
  case_bool_decide as Hx; [by apply IH |].
  intros [<- | Hin]; [done |].
  apply IH in Hin. set_solver.
Qed.

Lemma firstById_NoDup seen produced :
  NoDup (List.map issue_id (firstById seen produced)).
Proof.
  revert seen. induction produced as [| x produced IH]; intros seen; simpl.
  - constructor.
  - case_bool_decide; [by apply IH |].
    simpl. constructor; [| by apply IH].
    rewrite list_elem_of_In, List.in_map_iff. intros (y & Hid & Hin).
    apply firstById_fresh in Hin. set_solver.
Qed.

Lemma firstById_first seen produced issue :
  In issue (firstById seen produced) <->
  (issue_id issue ∉ seen) /\ isFirstOfItsId issue produced.
Proof.
  revert seen. induction produced as [| x produced IH]; intros seen; simpl.
  - split; [done |]. intros (_ & before & after & Heq & _).
    by destruct before.
  - case_bool_decide as Hx.
    + rewrite IH. split.
      * intros (Hfresh & before & after & -> & Hbefore).
        split; [done |]. exists (x :: before), after. split; [done |].
        constructor; [| done]. intros Heq. by rewrite Heq in Hx.
      * intros (Hfresh & before & after & Heq & Hbefore).
        split; [done |]. destruct before as [| b before]; simplify_eq/=.
        -- done.
        -- exists before, after.
           split; [done |]. by apply Forall_inv_tail in Hbefore.
    + simpl. rewrite IH. split.
      * intros [<- | (Hfresh & before & after & -> & Hbefore)].
        -- split; [done |]. by exists [], produced.
        -- apply not_elem_of_union in Hfresh as [Hne Hfresh].
           apply not_elem_of_singleton in Hne.
           split; [done |]. exists (x :: before), after. split; [done |].
           constructor; [congruence | done].
      * intros (Hfresh & before & after & Heq & Hbefore).
        destruct before as [| b before]; simplify_eq/=.
        -- by left.
        -- right.
           apply Forall_cons in Hbefore as [Hb Hbefore].
           split; [| by exists before, after].
           apply not_elem_of_union. split; [| done].
           apply not_elem_of_singleton. congruence.
Qed.

End RulePassFacts.

(** ** Flattening *)

Section Flattening.

Variable framerGetChildren : string -> ChildrenApiResult.

Local Abbreviation traverse := (traverse framerGetChildren).
Local Abbreviation traverseEach := (traverseEach framerGetChildren).
Local Abbreviation flattenNodes := (flattenNodes framerGetChildren).
Local Abbreviation childrenWalked := (childrenWalked framerGetChildren).
Local Abbreviation walksInto := (walksInto framerGetChildren).

(** The inner loop of [traverse] is the loop of [flattenNodes] one level down. *)
Lemma traverse_step (fuel : nat) (node : FramerNode) (result : list FramerNode) :
  traverse (S fuel) node result =
  traverseEach fuel (childrenWalked node) (result ++ [node]).
Proof.
  assert (Hloop : forall children r,
    (fix forEachChild (children : list FramerNode) (result : list FramerNode)
       : option (list FramerNode) :=
       match children with
       | [] => Some result
       | child :: more =>
           match traverse fuel child result with
           | Some result' => forEachChild more result'
           | None => None
           end
       end) children r = traverseEach fuel children r).
  { induction children as [| child more IH]; intros r; simpl; [done |].
    destruct (traverse fuel child r); [apply IH | done]. }
  unfold childrenWalked. simpl.
  destruct (framerGetChildren (node_id node)) as [| [children |]];
    [apply Hloop | apply Hloop | done].
Qed.

Lemma walks_terminate :
  (forall node visited, walks framerGetChildren node visited ->
     exists enough, forall fuel result, enough <= fuel ->
       traverse fuel node result = Some (result ++ visited)) /\
  (forall nodes visited, walksAll framerGetChildren nodes visited ->
     exists enough, forall fuel result, enough <= fuel ->
       traverseEach fuel nodes result = Some (result ++ visited)).
Proof.
  apply walks_walksAll_ind.
  - intros node below _ [enough IH]. exists (S enough).
    intros [| fuel] result Hfuel; [lia |].
    rewrite traverse_step, IH by lia. by rewrite <- app_assoc.
  - exists 0. intros fuel result _. simpl. by rewrite app_nil_r.
  - intros node more first rest _ [e1 IH1] _ [e2 IH2]. exists (e1 `max` e2).
    intros fuel result Hfuel. simpl.
    rewrite IH1, IH2 by lia. by rewrite app_assoc.
Qed.

Lemma walksAll_exists (nodes : list FramerNode) :
  Forall (fun node => exists visited, walks framerGetChildren node visited) nodes ->
  exists visited, walksAll framerGetChildren nodes visited.
Proof.
  induction 1 as [| node more [first Hfirst] _ [rest Hrest]].
  - exists []. constructor.
  - exists (first ++ rest). by constructor.
Qed.

Lemma well_founded_walks (node : FramerNode) :
  Acc (childOf framerGetChildren) node ->
  exists visited, walks framerGetChildren node visited.
Proof.
  induction 1 as [node _ IH].
  destruct (walksAll_exists (childrenWalked node)) as [below Hbelow].
  { apply List.Forall_forall. intros child Hin. by apply IH. }
  exists (node :: below). by constructor.
Qed.

Lemma traverseEach_member (fuel : nat) (nodes : list FramerNode)
  (result result' : list FramerNode) (node : FramerNode) :
  traverseEach fuel nodes result = Some result' -> In node nodes ->
  exists r1 r2, traverse fuel node r1 = Some r2.
Proof.
  revert result. induction nodes as [| n more IH]; intros result; simpl; [done |].
  destruct (traverse fuel n result) as [r |] eqn:Hn; [| done].
  intros Hmore [-> | Hin]; [by eauto | by eapply IH].
Qed.

Lemma traverse_descends (fuel : nat) (node child : FramerNode)
  (result result' : list FramerNode) :
  traverse fuel node result = Some result' -> walksInto node child ->
  exists fuel' r1 r2, fuel' < fuel /\ traverse fuel' child r1 = Some r2.
Proof.
  destruct fuel as [| fuel]; [done |].
  rewrite traverse_step. intros Hrun Hchild.
  destruct (traverseEach_member _ _ _ _ _ Hrun Hchild) as (r1 & r2 & Hr).
  exists fuel, r1, r2. split; [lia | done].
Qed.

Lemma traverse_reaches (node descendant : FramerNode) :
  rtc walksInto node descendant ->
  forall fuel result result',
    traverse fuel node result = Some result' ->
    exists fuel' r1 r2, fuel' <= fuel /\ traverse fuel' descendant r1 = Some r2.
Proof.
  induction 1 as [node | node child descendant Hstep _ IH];
    intros fuel result result' Hrun.
  - exists fuel, result, result'. split; [lia | done].
  - destruct (traverse_descends _ _ _ _ _ Hrun Hstep) as (f1 & r1 & r2 & Hlt & Hr).
    destruct (IH _ _ _ Hr) as (f2 & r3 & r4 & Hle & Hr').
    exists f2, r3, r4. split; [lia | done].
Qed.

Lemma traverse_cycle (fuel : nat) :
  forall node result, tc walksInto node node -> traverse fuel node result = None.
Proof.
  induction fuel as [fuel IH] using lt_wf_ind.
  intros node result Hcycle.
  destruct (traverse fuel node result) as [result' |] eqn:Hrun; [| done].
  exfalso.
  inversion Hcycle as [? ? Hstep | ? child ? Hstep Hback]; subst.
  - destruct (traverse_descends _ _ _ _ _ Hrun Hstep) as (f1 & r1 & r2 & Hlt & Hr).
    by rewrite (IH f1 Hlt node r1 Hcycle) in Hr.
  - destruct (traverse_descends _ _ _ _ _ Hrun Hstep) as (f1 & r1 & r2 & Hlt & Hr).
    destruct (traverse_reaches child node (tc_rtc _ _ Hback) _ _ _ Hr)
      as (f2 & r3 & r4 & Hle & Hr').
    rewrite (IH f2) in Hr'; [done | lia | done].
Qed.

Lemma flattenNodes_cycle (roots : list FramerNode) (root : FramerNode) (fuel : nat) :
  In root roots -> cyclicBelow framerGetChildren root ->
  flattenNodes fuel roots = None.
Proof.
  intros Hin (node & Hreach & Hcycle).
  destruct (flattenNodes fuel roots) as [result |] eqn:Hrun; [| done].
  destruct (traverseEach_member _ _ _ _ _ Hrun Hin) as (r1 & r2 & Hr).
  destruct (traverse_reaches _ _ Hreach _ _ _ Hr) as (f & r3 & r4 & _ & Hr').
  by rewrite traverse_cycle in Hr'.
Qed.

End Flattening.

(** C4, as stated, fails: on a host that reports a node among its own
    children, no amount of fuel lets the traversal settle; it neither
    returns a list nor raises an error. *)
Lemma flattenNodes_cycle_never_settles :
  ~ exists fuel, flattenNodes Sample.loopingHost fuel [Sample.card] <> None.
Proof.
  intros [fuel Hsettles]. apply Hsettles.
  apply (flattenNodes_cycle Sample.loopingHost [Sample.card] Sample.card).
  - by left.
  - exists Sample.card. split; [constructor |].
    apply tc_once. by left.
Qed.

(** C4, amended.  When the child relation the traversal follows is well
    founded below every root (a finite tree without cycles), [flattenNodes]
    returns, given enough fuel, the nodes in depth-first discovery order,
    every node before its descendants.  When some node reachable from a
    root is among its own descendants, the traversal does not fail fast:
    it never returns, whatever the fuel. *)
Theorem flattenNodes_terminates_unless_cyclic
  (framerGetChildren : string -> ChildrenApiResult) :
  (forall roots,
      Forall (Acc (childOf framerGetChildren)) roots ->
      exists visited,
        walksAll framerGetChildren roots visited /\
        exists enough, forall fuel, enough <= fuel ->
          flattenNodes framerGetChildren fuel roots = Some visited) /\
  (forall roots root,
      In root roots -> cyclicBelow framerGetChildren root ->
      forall fuel, flattenNodes framerGetChildren fuel roots = None).
Proof.
  split.
  - intros roots Hacc.
    destruct (walksAll_exists framerGetChildren roots) as [visited Hwalk].
    { eapply Forall_impl; [exact Hacc |]. apply well_founded_walks. }
    exists visited. split; [done |].
    destruct (proj2 (walks_terminate framerGetChildren) _ _ Hwalk) as [enough Hrun].
    exists enough. intros fuel Hfuel. by apply (Hrun fuel []).
  - intros roots root Hin Hcycle fuel. by eapply flattenNodes_cycle.
Qed.

(** The card and its label, with the provider unavailable. *)
Lemma flattenNodes_terminates_unless_cyclic_witness :
  (exists visited,
      walksAll Sample.offlineHost [Sample.card] visited /\
      exists enough, forall fuel, enough <= fuel ->
        flattenNodes Sample.offlineHost fuel [Sample.card] = Some visited) /\
  flattenNodes Sample.offlineHost 2 [Sample.card] = Some [Sample.card; Sample.label].
Proof.
  split; [| reflexivity].
  apply (proj1 (flattenNodes_terminates_unless_cyclic Sample.offlineHost)).
  constructor; [| constructor].
  apply Acc_intro. intros child [<- | []].
  apply Acc_intro. intros child' [].
Defined.

(** ** The audit *)

Section Audit.

Context {Host : Type}.
Variable framerGetChildren : string -> ChildrenApiResult.
Variable allRules : list (Rule Host).

Lemma includes_In (ids : list string) (id : string) :
  includes ids id = true <-> In id ids.
Proof.
  unfold includes. rewrite List.existsb_exists. split.
  - intros (x & Hin & Heq). apply String.eqb_eq in Heq. by subst.
  - intros Hin. exists id. by rewrite String.eqb_refl.
Qed.

Lemma getEnabledRules_In (settings : PluginSettings) (rule : Rule Host) :
  In rule (getEnabledRules allRules settings) <->
  In rule allRules /\ ruleSelected settings rule.
Proof.
  unfold getEnabledRules, ruleSelected. rewrite List.filter_In.
  apply and_iff_compat_l.
  destruct (includes (disabledRules settings) (rule_id rule)) eqn:Hdis.
  - apply includes_In in Hdis. split; [done | by intros [? _]].
  - assert (Hnot : ~ In (rule_id rule) (disabledRules settings)).
    { intros Hin. apply includes_In in Hin. congruence. }
    destruct (enabledRules settings) as [| id ids].
    + simpl. tauto.
    + change (0 <? length (id :: ids))%nat with true. cbv iota.
      rewrite includes_In. tauto.
Qed.

Lemma auditPairs_In (enabled : list (Rule Host)) (nodes : list FramerNode)
  (node : FramerNode) (rule : Rule Host) :
  In (node, rule) (auditPairs enabled nodes) <-> In node nodes /\ In rule enabled.
Proof.
  unfold auditPairs. rewrite List.in_flat_map. split.
  - intros (n & Hn & Hin). apply List.in_map_iff in Hin as (r & [= -> ->] & Hr).
    done.
  - intros [Hn Hr]. exists node. split; [done |]. by apply List.in_map.
Qed.

Lemma producedIssues_In (allNodesFlat : list FramerNode) (settings : PluginSettings)
  (pairs : list (FramerNode * Rule Host)) (issue : Issue Host) :
  In issue (producedIssues allNodesFlat settings pairs) <->
  exists p, In p pairs /\ checkPair allNodesFlat settings p = Resolved (Some issue).
Proof.
  unfold producedIssues. rewrite List.in_flat_map. split.
  - intros (p & Hp & Hin). exists p. split; [done |].
    destruct (checkPair allNodesFlat settings p) as [[x |] | error]; try done.
    by destruct Hin as [<- | []].
  - intros (p & Hp & Hc). exists p. split; [done |]. rewrite Hc. by left.
Qed.

Lemma thrownErrors_In (allNodesFlat : list FramerNode) (settings : PluginSettings)
  (pairs : list (FramerNode * Rule Host)) (msg : string) :
  In msg (thrownErrors allNodesFlat settings pairs) <->
  exists node rule error,
    In (node, rule) pairs /\
    checkPair allNodesFlat settings (node, rule) = Rejected error /\
    msg = ruleErrorMsg rule node error.
Proof.
  unfold thrownErrors. rewrite List.in_flat_map. split.
  - intros ([node rule] & Hp & Hmsg).
    destruct (checkPair allNodesFlat settings (node, rule)) as [? | error] eqn:Hc;
      [done |].
    destruct Hmsg as [<- | []]. by exists node, rule, error.
  - intros (node & rule & error & Hp & Hc & ->).
    exists (node, rule). split; [done |]. rewrite Hc. by left.
Qed.

(** Every produced issue has its id in the result, unless it was seen. *)
Lemma firstById_ids (seen : gset string) (produced : list (Issue Host))
  (issue : Issue Host) :
  In issue produced ->
  (issue_id issue ∈ seen) \/
  In (issue_id issue) (List.map issue_id (firstById seen produced)).
Proof.
  revert seen. induction produced as [| x produced IH]; intros seen; [done |].
  simpl. intros [-> | Hin].
  - case_bool_decide; [by left | right; by left].
  - case_bool_decide as Hx; [by apply IH |].
    destruct (IH ({[ issue_id x ]} ∪ seen) Hin) as [Hseen | Hkept].
    + apply elem_of_union in Hseen as [Hx' | Hseen]; [| by left].
      apply elem_of_singleton in Hx'. right. left. done.
    + right. by right.
Qed.

(** On a tree without cycles the traversal returns, given enough fuel. *)
Lemma flattenNodes_returns (nodes : list FramerNode) :
  Forall (Acc (childOf framerGetChildren)) nodes ->
  exists enough allNodesFlat, forall fuel, enough <= fuel ->
    flattenNodes framerGetChildren fuel nodes = Some allNodesFlat.
Proof.
  intros Hacc.
  destruct (walksAll_exists framerGetChildren nodes) as [visited Hwalk].
  { eapply Forall_impl; [exact Hacc |]. apply well_founded_walks. }
  destruct (proj2 (walks_terminate framerGetChildren) _ _ Hwalk) as [enough Hrun].
  exists enough, visited. intros fuel Hfuel. by apply (Hrun fuel []).
Qed.

(** The audit returns whenever the flattening does, whatever the checks do. *)
Lemma auditNodes_returns startTime endTime nodes settings :
  Forall (Acc (childOf framerGetChildren)) nodes ->
  exists enough, forall fuel, enough <= fuel ->
    exists result : AuditResult Host,
      auditNodes framerGetChildren allRules fuel startTime endTime nodes settings
      = Some result.
Proof.
  intros Hacc. destruct (flattenNodes_returns nodes Hacc) as (enough & flat & Hflat).
  exists enough. intros fuel Hfuel. unfold auditNodes.
  rewrite (Hflat fuel Hfuel). by eexists.
Qed.

(** The result of a run that returns, in terms of the pairs visited. *)
Lemma auditNodes_run fuel startTime endTime nodes settings
  (result : AuditResult Host) :
  auditNodes framerGetChildren allRules fuel startTime endTime nodes settings = Some result ->
  exists allNodesFlat,
    flattenNodes framerGetChildren fuel nodes = Some allNodesFlat /\
    let pairs := auditPairs (getEnabledRules allRules settings) allNodesFlat in
    issues result = firstById ∅ (producedIssues allNodesFlat settings pairs) /\
    errors result =
      match thrownErrors allNodesFlat settings pairs with
      | [] => None
      | thrown => Some thrown
      end /\
    nodesAudited result = length allNodesFlat.
Proof.
  unfold auditNodes.
  destruct (flattenNodes framerGetChildren fuel nodes) as [allNodesFlat |]; [| done].
  intros [= <-]. exists allNodesFlat. split; [done |]. simpl.
  rewrite runNode_pairs, runPair_issues, runPair_errors. simpl.
  split; [done |]. split; [| done].
  by destruct (thrownErrors _ _ _).
Qed.

(** C1.  On a node tree without cycles the audit returns, given enough
    fuel.  The issues of an audit that returns are the issues the checks
    produced, each kept exactly when no issue of the same id was produced
    before it, in order of production; so their ids are pairwise distinct
    and a later issue with an id already produced is dropped.  The kept
    issue is the first one as it was produced, and the error list holds
    only the messages of the checks that threw: a dropped duplicate leaves
    no trace. *)
Theorem auditNodes_issue_ids_distinct startTime endTime nodes settings :
  (Forall (Acc (childOf framerGetChildren)) nodes ->
   exists enough, forall fuel, enough <= fuel ->
     exists result : AuditResult Host,
       auditNodes framerGetChildren allRules fuel startTime endTime nodes settings
       = Some result) /\
  (forall fuel (result : AuditResult Host),
     auditNodes framerGetChildren allRules fuel startTime endTime nodes settings
     = Some result ->
     exists allNodesFlat,
       flattenNodes framerGetChildren fuel nodes = Some allNodesFlat /\
       let pairs := auditPairs (getEnabledRules allRules settings) allNodesFlat in
       let produced := producedIssues allNodesFlat settings pairs in
       NoDup (List.map issue_id (issues result)) /\
       (forall issue, In issue (issues result) <-> isFirstOfItsId issue produced) /\
       (forall issue, In issue produced ->
          In (issue_id issue) (List.map issue_id (issues result))) /\
       issues result = firstById ∅ produced /\
       (forall list, errors result = Some list ->
                     list = thrownErrors allNodesFlat settings pairs)).
Proof.
  split; [apply auditNodes_returns |].
  intros fuel result Hrun.
  destruct (auditNodes_run _ _ _ _ _ _ Hrun)
    as (flat & Hflat & Hissues & Herrors & _).
  exists flat. split; [done |]. simpl in *. rewrite Hissues.
  split; [apply firstById_NoDup |].
  split; [| split; [| split; [done |]]].
  - intros issue. rewrite firstById_first. split; [by intros [_ ?] |].
    intros Hfirst. split; [apply not_elem_of_empty | done].
  - intros issue Hin.
    destruct (firstById_ids ∅ _ issue Hin) as [Hseen | Hkept]; [| done].
    by apply not_elem_of_empty in Hseen.
  - rewrite Herrors. intros list.
    destruct (thrownErrors flat settings _); [done | by intros [= <-]].
Qed.

(** C2.  On a node tree without cycles the audit returns, given enough
    fuel, whatever the checks do: a check that throws does not end it.  In
    an audit that returns, every check that threw contributed one message
    to the error list, in order, reading [Rule "<rule id>" failed on node
    "<node id>": <message>] with the [message] of a thrown [Error] and the
    string form of any other thrown value; the pairs after a check that
    threw were still run, an issue one of them produced having its id in
    the result; and the [errors] field is absent exactly when no check
    threw. *)
Theorem auditNodes_isolates_rule_errors startTime endTime nodes settings :
  (Forall (Acc (childOf framerGetChildren)) nodes ->
   exists enough, forall fuel, enough <= fuel ->
     exists result : AuditResult Host,
       auditNodes framerGetChildren allRules fuel startTime endTime nodes settings
       = Some result) /\
  (forall fuel (result : AuditResult Host),
     auditNodes framerGetChildren allRules fuel startTime endTime nodes settings
     = Some result ->
     exists allNodesFlat,
       flattenNodes framerGetChildren fuel nodes = Some allNodesFlat /\
       let pairs := auditPairs (getEnabledRules allRules settings) allNodesFlat in
       let thrown := thrownErrors allNodesFlat settings pairs in
       (forall msg, In msg thrown <->
          exists node rule error,
            In (node, rule) pairs /\
            checkPair allNodesFlat settings (node, rule) = Rejected error /\
            msg = failureMessage (rule_id rule) (node_id node)
                    match error with
                    | ErrorObject message => message
                    | OtherThrown asString => asString
                    end) /\
       (errors result = None <-> thrown = []) /\
       (forall list, errors result = Some list -> list = thrown) /\
       (errors result = None <->
          Forall (fun p => forall error,
                    checkPair allNodesFlat settings p <> Rejected error) pairs) /\
       (forall before p after error,
          pairs = before ++ p :: after ->
          checkPair allNodesFlat settings p = Rejected error ->
          forall q issue,
            In q after ->
            checkPair allNodesFlat settings q = Resolved (Some issue) ->
            In (issue_id issue) (List.map issue_id (issues result))) /\
       issues result = firstById ∅ (producedIssues allNodesFlat settings pairs)).
Proof.
  split; [apply auditNodes_returns |].
  intros fuel result Hrun.
  destruct (auditNodes_run _ _ _ _ _ _ Hrun)
    as (flat & Hflat & Hissues & Herrors & _).
  exists flat. split; [done |]. simpl in *.
  set (pairs := auditPairs (getEnabledRules allRules settings) flat) in *.
  pose proof (thrownErrors_In flat settings pairs) as Hin.
  assert (Hnone : errors result = None <-> thrownErrors flat settings pairs = []).
  { rewrite Herrors. by destruct (thrownErrors flat settings pairs). }
  split.
  { intros msg. rewrite Hin. split.
    - intros (node & rule & error & Hp & Hc & ->).
      exists node, rule, error. by destruct error.
    - intros (node & rule & error & Hp & Hc & ->).
      exists node, rule, error. by destruct error. }
  split; [exact Hnone |].
  split.
  { rewrite Herrors. intros list.
    destruct (thrownErrors flat settings pairs); [done | by intros [= <-]]. }
  split.
  { rewrite Hnone, List.Forall_forall. split.
    - intros Hnil [node rule] Hp error Hc.
      assert (Hmsg : In (ruleErrorMsg rule node error)
                        (thrownErrors flat settings pairs)).
      { apply Hin. by exists node, rule, error. }
      by rewrite Hnil in Hmsg.
    - intros Hall.
      destruct (thrownErrors flat settings pairs) as [| msg thrown] eqn:Hthrown;
        [done |].
      destruct (proj1 (Hin msg)) as (node & rule & error & Hp & Hc & _);
        [by left |].
      by destruct (Hall _ Hp error). }
  split; [| done].
  intros before p after error Hpairs Hp q issue Hq Hc. rewrite Hissues.
  destruct (firstById_ids ∅ (producedIssues flat settings pairs) issue)
    as [Hseen | Hkept]; [| by apply not_elem_of_empty in Hseen | done].
  apply producedIssues_In. exists q. split; [| done].
  rewrite Hpairs. apply List.in_or_app. right. by right.
Qed.

(** C3.  [getEnabledRules] keeps exactly the registered rules the settings
    select: id not in [disabledRules] and, [enabledRules] being non-empty,
    id in [enabledRules], or, [enabledRules] being empty, the rule's
    [enabledByDefault] flag set; a rule whose id is in [disabledRules] is
    left out whatever [enabledRules] holds.  On a node tree without cycles
    the audit returns, and an audit that returns has run every selected
    rule on every flattened node (a check that threw has its message in
    [errors], a check that produced an issue has the issue's id among the
    issues) and has run nothing else (every issue and every message comes
    from the check of a selected rule on a flattened node). *)
Theorem auditNodes_runs_selected_rules startTime endTime nodes settings :
  (forall rule, In rule (getEnabledRules allRules settings) <->
     In rule allRules /\
     ~ In (rule_id rule) (disabledRules settings) /\
     match enabledRules settings with
     | [] => enabledByDefault rule = true
     | _ :: _ => In (rule_id rule) (enabledRules settings)
     end) /\
  (forall rule : Rule Host,
     In (rule_id rule) (disabledRules settings) ->
     ~ In rule (getEnabledRules allRules settings)) /\
  (Forall (Acc (childOf framerGetChildren)) nodes ->
   exists enough, forall fuel, enough <= fuel ->
     exists result : AuditResult Host,
       auditNodes framerGetChildren allRules fuel startTime endTime nodes settings
       = Some result) /\
  (forall fuel (result : AuditResult Host),
     auditNodes framerGetChildren allRules fuel startTime endTime nodes settings
     = Some result ->
     exists allNodesFlat,
       flattenNodes framerGetChildren fuel nodes = Some allNodesFlat /\
       (forall node rule,
          In node allNodesFlat -> In rule allRules -> ruleSelected settings rule ->
          (forall error,
             check rule node (buildContext node allNodesFlat settings)
             = Rejected error ->
             exists list, errors result = Some list /\
                          In (ruleErrorMsg rule node error) list) /\
          (forall issue,
             check rule node (buildContext node allNodesFlat settings)
             = Resolved (Some issue) ->
             In (issue_id issue) (List.map issue_id (issues result)))) /\
       (forall issue, In issue (issues result) ->
          exists node rule,
            In node allNodesFlat /\ In rule allRules /\
            ruleSelected settings rule /\
            check rule node (buildContext node allNodesFlat settings)
            = Resolved (Some issue)) /\
       (forall list msg, errors result = Some list -> In msg list ->
          exists node rule error,
            In node allNodesFlat /\ In rule allRules /\
            ruleSelected settings rule /\
            check rule node (buildContext node allNodesFlat settings)
            = Rejected error /\
            msg = ruleErrorMsg rule node error)).
Proof.
  split; [intros rule; apply getEnabledRules_In |].
  split.
  { intros rule Hdis Hin. apply getEnabledRules_In in Hin as [_ [Hnot _]].
    by apply Hnot. }
  split; [apply auditNodes_returns |].
  intros fuel result Hrun.
  destruct (auditNodes_run _ _ _ _ _ _ Hrun)
    as (flat & Hflat & Hissues & Herrors & _).
  exists flat. split; [done |]. simpl in *.
  set (pairs := auditPairs (getEnabledRules allRules settings) flat) in *.
  assert (Hpair : forall node rule,
            In (node, rule) pairs <->
            In node flat /\ In rule allRules /\ ruleSelected settings rule).
  { intros node rule. unfold pairs. rewrite auditPairs_In, getEnabledRules_In.
    tauto. }
  assert (Hlist : forall list, errors result = Some list ->
                               list = thrownErrors flat settings pairs).
  { rewrite Herrors. intros list.
    destruct (thrownErrors flat settings pairs); [done | by intros [= <-]]. }
  split; [| split].
  - intros node rule Hnode Hrule Hsel. split.
    + intros error Hc.
      assert (Hmsg : In (ruleErrorMsg rule node error)
                        (thrownErrors flat settings pairs)).
      { apply thrownErrors_In. exists node, rule, error.
        split; [by apply Hpair | done]. }
      rewrite Herrors.
      destruct (thrownErrors flat settings pairs) as [| m thrown]; [done |].
      by eexists.
    + intros issue Hc. rewrite Hissues.
      destruct (firstById_ids ∅ (producedIssues flat settings pairs) issue)
        as [Hseen | Hkept]; [| by apply not_elem_of_empty in Hseen | done].
      apply producedIssues_In. exists (node, rule). split; [by apply Hpair | done].
  - intros issue Hin. rewrite Hissues in Hin.
    apply firstById_first in Hin as (_ & before & after & Hprod & _).
    assert (Hproduced : In issue (producedIssues flat settings pairs)).
    { rewrite Hprod. apply List.in_or_app. right. by left. }
    apply producedIssues_In in Hproduced as ([node rule] & Hp & Hc).
    apply Hpair in Hp as (Hnode & Hrule & Hsel). by exists node, rule.
  - intros list msg Hsome Hin. rewrite (Hlist list Hsome) in Hin.
    apply thrownErrors_In in Hin as (node & rule & error & Hp & Hc & ->).
    apply Hpair in Hp as (Hnode & Hrule & Hsel). by exists node, rule, error.
Qed.

End Audit.

(** The label, and the card with its label, are trees without cycles when
    the provider is unavailable. *)
Lemma sample_label_acyclic : Acc (childOf Sample.offlineHost) Sample.label.
Proof. apply Acc_intro. intros child []. Qed.

Lemma sample_card_acyclic : Acc (childOf Sample.offlineHost) Sample.card.
Proof.
  apply Acc_intro. intros child [<- | []]. apply sample_label_acyclic.
Qed.

(** The label is selected together with its card, so it is flattened twice
    and its issue is produced twice; the audit returns and its result holds
    the issue once. *)
Lemma auditNodes_issue_ids_distinct_witness :
  (exists enough, forall fuel, enough <= fuel ->
     exists result : AuditResult unit,
       auditNodes Sample.offlineHost [Sample.textRule] fuel Sample.clock
         Sample.clock [Sample.card; Sample.label] DEFAULT_SETTINGS = Some result) /\
  exists result : AuditResult unit,
    auditNodes Sample.offlineHost [Sample.textRule] 3 Sample.clock Sample.clock
      [Sample.card; Sample.label] DEFAULT_SETTINGS = Some result /\
    nodesAudited result = 3 /\
    List.map issue_id (issues result) = ["overflowing-text-label"] /\
    NoDup (List.map issue_id (issues result)).
Proof.
  destruct (auditNodes_issue_ids_distinct Sample.offlineHost [Sample.textRule]
              Sample.clock Sample.clock [Sample.card; Sample.label]
              DEFAULT_SETTINGS) as [Hreturns Hdedup].
  split.
  { apply Hreturns.
    constructor; [apply sample_card_acyclic |].
    constructor; [apply sample_label_acyclic | constructor]. }
  destruct (auditNodes Sample.offlineHost [Sample.textRule] 3 Sample.clock
              Sample.clock [Sample.card; Sample.label] DEFAULT_SETTINGS)
    as [result |] eqn:Hrun; [| by vm_compute in Hrun].
  exists result. split; [done |].
  destruct (Hdedup 3 result Hrun) as (flat & _ & Hnodup & _).
  vm_compute in Hrun. injection Hrun as <-. done.
Defined.

(** A rule that throws on both nodes, registered before the text rule: the
    audit returns, with the two messages spelled out, and the issue of the
    text rule, checked after the rule that threw, is still reported. *)
Lemma auditNodes_isolates_rule_errors_witness :
  (exists enough, forall fuel, enough <= fuel ->
     exists result : AuditResult unit,
       auditNodes Sample.offlineHost [Sample.brokenRule; Sample.textRule] fuel
         Sample.clock Sample.clock [Sample.card] DEFAULT_SETTINGS = Some result) /\
  exists result : AuditResult unit,
    auditNodes Sample.offlineHost [Sample.brokenRule; Sample.textRule] 2
      Sample.clock Sample.clock [Sample.card] DEFAULT_SETTINGS = Some result /\
    errors result =
      Some ["Rule " +:+ String (ascii_of_nat 34) ("broken" +:+
              String (ascii_of_nat 34) (" failed on node " +:+
              String (ascii_of_nat 34) ("card" +:+
              String (ascii_of_nat 34) ": boom")));
            "Rule " +:+ String (ascii_of_nat 34) ("broken" +:+
              String (ascii_of_nat 34) (" failed on node " +:+
              String (ascii_of_nat 34) ("label" +:+
              String (ascii_of_nat 34) ": boom")))] /\
    List.map issue_id (issues result) = ["overflowing-text-label"].
Proof.
  destruct (auditNodes_isolates_rule_errors Sample.offlineHost
              [Sample.brokenRule; Sample.textRule] Sample.clock Sample.clock
              [Sample.card] DEFAULT_SETTINGS) as [Hreturns Hisolates].
  split.
  { apply Hreturns. constructor; [apply sample_card_acyclic | constructor]. }
  destruct (auditNodes Sample.offlineHost [Sample.brokenRule; Sample.textRule] 2
              Sample.clock Sample.clock [Sample.card] DEFAULT_SETTINGS)
    as [result |] eqn:Hrun; [| by vm_compute in Hrun].
  exists result. split; [done |].
  destruct (Hisolates 2 result Hrun)
    as (flat & Hflat & _ & _ & Hsome & _ & _ & Hissues).
  injection Hflat as <-. split.
  - destruct (errors result) as [list |] eqn:Herrors.
    + by rewrite (Hsome list eq_refl).
    + vm_compute in Hrun. injection Hrun as <-. discriminate.
  - rewrite Hissues. reflexivity.
Defined.

(** Both rules are allow-listed and the broken one is also disabled: the
    audit returns, the broken rule is not run (no error is recorded) and
    the text rule is run on the label. *)
Lemma auditNodes_runs_selected_rules_witness :
  (exists enough, forall fuel, enough <= fuel ->
     exists result : AuditResult unit,
       auditNodes Sample.offlineHost [Sample.brokenRule; Sample.textRule] fuel
         Sample.clock Sample.clock [Sample.card] Sample.disablingSettings
       = Some result) /\
  exists result : AuditResult unit,
    auditNodes Sample.offlineHost [Sample.brokenRule; Sample.textRule] 2
      Sample.clock Sample.clock [Sample.card] Sample.disablingSettings
    = Some result /\
    errors result = None /\
    In "overflowing-text-label" (List.map issue_id (issues result)).
Proof.
  destruct (auditNodes_runs_selected_rules Sample.offlineHost
              [Sample.brokenRule; Sample.textRule] Sample.clock Sample.clock
              [Sample.card] Sample.disablingSettings)
    as (_ & _ & Hreturns & Hruns).
  split.
  { apply Hreturns. constructor; [apply sample_card_acyclic | constructor]. }
  destruct (auditNodes Sample.offlineHost [Sample.brokenRule; Sample.textRule] 2
              Sample.clock Sample.clock [Sample.card] Sample.disablingSettings)
    as [result |] eqn:Hrun; [| by vm_compute in Hrun].
  exists result. split; [done |].
  destruct (Hruns 2 result Hrun) as (flat & Hflat & Hselected & _).
  injection Hflat as <-. split.
  - vm_compute in Hrun. by injection Hrun as <-.
  - destruct (Hselected Sample.label Sample.textRule) as [_ Hissue].
    + right. by left.
    + right. by left.
    + split; [| right; by left]. intros [Heq | []]. discriminate.
    + by apply (Hissue _ eq_refl).
Defined.
